(** * Intro detector: fingerprint similarity and candidate search

    A shallow embedding of [src/models/intro_detector.py] and
    [src/features/fingerprint_extractor.py], together with the batch driver
    of [scripts/run_detector.py].

    Numbers.  Python floats are modelled by canonical rationals [Qc]: the
    code only adds, subtracts, divides and compares them, and rounding is
    not modelled.  Python integers are [Z].  Exceptions are modelled by the
    [result] monad below.

    Media.  Decoding goes through OpenCV; what it reports for a file (does
    the capture open, its frame rate, the outcome of the fingerprint walk)
    is input data of the model, see [Video]. *)

From Stdlib Require Import ZArith QArith Qcanon Qround Lia Lqa.
From stdpp Require Import base numbers option list list_numbers gmap strings sorting.

Local Open Scope Z_scope.

(** ** Exceptions *)

Inductive exn : Type :=
  | IndexError
  | KeyError
  | ValueError
  | ZeroDivisionError
  | MediaError.

Inductive result (A : Type) : Type :=
  | Ok (a : A)
  | Raise (e : exn).
Arguments Ok {A} a.
Arguments Raise {A} e.

Global Instance result_ret : MRet result := λ A a, Ok a.
Global Instance result_bind : MBind result := λ A B f m,
  match m with
  | Ok a => f a
  | Raise e => Raise e
  end.

Global Instance exn_eq_dec : EqDecision exn.
Proof. solve_decision. Defined.

Global Instance result_eq_dec `{EqDecision A} : EqDecision (result A).
Proof. solve_decision. Defined.

(** The value of a computation that did not raise, [d] otherwise. *)
Definition value_or {A} (d : A) (m : result A) : A :=
  match m with Ok a => a | Raise _ => d end.

(** Monadic left fold: a [for] loop that threads its state and stops at the
    first exception. *)
Fixpoint foldlM {A S} (f : S → A → result S) (s : S) (xs : list A) : result S :=
  match xs with
  | [] => Ok s
  | x :: xs' => s' ← f s x; foldlM f s' xs'
  end.

(** ** Python primitives *)

(** [int(x)] on a float truncates towards zero. *)
Definition py_int (x : Qc) : Z := Z.quot (Qnum x) (Zpos (Qden x)).

(** [range(a, b)]. *)
Definition py_range (a b : Z) : list Z := seqZ a (b - a).

(** [l[i]] on a list: negative indices count from the end, anything outside
    [-len, len) raises IndexError. *)
Definition py_index {A} (l : list A) (i : Z) : result A :=
  let n := Z.of_nat (length l) in
  let i' := if decide (i < 0) then i + n else i in
  if decide (0 ≤ i' < n) then
    match l !! Z.to_nat i' with
    | Some x => Ok x
    | None => Raise IndexError
    end
  else Raise IndexError.

(** A two-dimensional numpy array, stored by rows. *)
Abbreviation matrix := (list (list Qc)).

(** [m[r, c]]. *)
Definition mat_index (m : matrix) (r c : Z) : result Qc :=
  row ← py_index m r; py_index row c.

Definition Qc_sum (xs : list Qc) : Qc := foldr Qcplus 0%Qc xs.

(** [np.mean] of a list of floats. *)
Definition np_mean (xs : list Qc) : Qc :=
  (Qc_sum xs / Qc_of_Z (Z.of_nat (length xs)))%Qc.

(** ** IntroDetector *)

Record IntroDetector : Type := {
  min_intro_length : Qc;
  max_intro_length : Qc;
  similarity_threshold : Qc
}.

Record Candidate : Type := {
  start_time : Qc;
  end_time : Qc;
  duration : Qc;
  similarity_score : Qc
}.

Global Instance Candidate_eq_dec : EqDecision Candidate.
Proof. solve_decision. Defined.

Section find_intro_candidates.
Variable self : IntroDetector.
Variable similarity_matrix : matrix.
Variable times : list Qc.

Let n : Z := Z.of_nat (length times).

(** The index pairs of the two nested [for] loops, in iteration order:
    [for i in range(n): for j in range(i + int(self.min_intro_length), n)]. *)
Definition index_pairs : list (Z * Z) :=
  i ← py_range 0 n;
  j ← py_range (i + py_int (min_intro_length self)) n;
  [(i, j)].

(** The guard at the top of the inner loop body: [false] is [continue]. *)
Definition within_max_length (i j : Z) : result bool :=
  tj ← py_index times j;
  ti ← py_index times i;
  Ok (bool_decide (¬ (max_intro_length self < tj - ti)%Qc)).

(** [[similarity_matrix[i+k, j+k] for k in range(min(20, n-j))]]. *)
Definition probe_window (i j : Z) : result (list Qc) :=
  mapM (λ k, mat_index similarity_matrix (i + k) (j + k))
       (py_range 0 (Z.min 20 (n - j))).

(** The extension loop, with [end_offset] as its state; leaving the
    recursion is [break]. *)
Fixpoint extend_match (i j : Z) (ks : list Z) (end_offset : Z) : result Z :=
  match ks with
  | [] => Ok end_offset
  | k :: ks' =>
      s ← mat_index similarity_matrix (i + k) (j + k);
      if decide (similarity_threshold self < s)%Qc
      then extend_match i j ks' k
      else Ok end_offset
  end.

Definition extension_range (j : Z) : list Z :=
  py_range 0 (Z.min (py_int (max_intro_length self)) (n - j)).

(** One iteration of the inner loop body: the candidates it appends. *)
Definition scan_pair (i j : Z) : result (list Candidate) :=
  ok ← within_max_length i j;
  if ok : bool then
    window ← probe_window i j;
    let sequence_similarity := np_mean window in
    if decide (similarity_threshold self < sequence_similarity)%Qc then
      end_offset ← extend_match i j (extension_range j) 0;
      te ← py_index times (i + end_offset);
      ti ← py_index times i;
      let duration := (te - ti)%Qc in
      if decide (min_intro_length self ≤ duration ∧
                 duration ≤ max_intro_length self)%Qc
      then
        (* the dictionary re-reads [times[i]] and [times[i + end_offset]] *)
        Ok [ {| start_time := ti; end_time := te;
                duration := duration;
                similarity_score := sequence_similarity |} ]
      else Ok []
    else Ok []
  else Ok [].

(** The search loops: [candidates] after both loops have run. *)
Definition collect_candidates : result (list Candidate) :=
  foldlM (λ candidates '(i, j),
            new ← scan_pair i j; Ok (candidates ++ new))
         [] index_pairs.
End find_intro_candidates.

(** [candidates.sort(key=lambda x: x['similarity_score'], reverse=True)]:
    a stable sort by descending score. *)
Fixpoint insert_by_score (c : Candidate) (l : list Candidate) : list Candidate :=
  match l with
  | [] => [c]
  | d :: l' =>
      if decide (similarity_score c < similarity_score d)%Qc
      then d :: insert_by_score c l'
      else c :: d :: l'
  end.

Definition sort_by_score (l : list Candidate) : list Candidate :=
  foldr insert_by_score [] l.

(** The overlap test of the filter loop. *)
Definition overlaps (c fc : Candidate) : Prop :=
  (start_time c < end_time fc ∧ start_time fc < end_time c)%Qc.

Global Instance overlaps_dec c fc : Decision (overlaps c fc).
Proof. unfold overlaps. apply _. Defined.

(** The filter loop, with [filtered_candidates] as its state. *)
Fixpoint filter_overlapping (candidates filtered : list Candidate)
  : list Candidate :=
  match candidates with
  | [] => filtered
  | c :: rest =>
      if decide (Exists (overlaps c) filtered)
      then filter_overlapping rest filtered
      else
        let filtered' := filtered ++ [c] in
        if decide (5 ≤ length filtered')%nat
        then filtered'
        else filter_overlapping rest filtered'
  end.

Definition find_intro_candidates (self : IntroDetector)
    (similarity_matrix : matrix) (times : list Qc) : result (list Candidate) :=
  candidates ← collect_candidates self similarity_matrix times;
  Ok (filter_overlapping (sort_by_score candidates) []).

(** ** FingerprintExtractor *)

Abbreviation fingerprint := (list bool).

(** [fp1 != fp2] on one-dimensional boolean arrays: elementwise, an array of
    length one is broadcast, other length mismatches raise ValueError. *)
Definition np_not_equal (fp1 fp2 : fingerprint) : result (list bool) :=
  if decide (length fp1 = length fp2) then Ok (zip_with xorb fp1 fp2)
  else if decide (length fp1 = 1%nat) then Ok (xorb (default false (head fp1)) <$> fp2)
  else if decide (length fp2 = 1%nat) then Ok ((λ b, xorb b (default false (head fp2))) <$> fp1)
  else Raise ValueError.

(** [np.sum] of a boolean array. *)
Definition np_sum (bs : list bool) : Z := Z.of_nat (length (filter (λ b, b = true) bs)).

(** [1.0 - distance / len(fp1)].  The rational model has no NaN: for an empty
    [fp1] numpy yields NaN, which lies outside this model. *)
Definition similarity_of (distance : Z) (fp1 : fingerprint) : Qc :=
  (1 - Qc_of_Z distance / Qc_of_Z (Z.of_nat (length fp1)))%Qc.

Definition np_zeros (n : nat) : matrix := replicate n (replicate n 0%Qc).

(** [m[r, c] = v] for indices inside the array. *)
Definition mat_set (m : matrix) (r c : nat) (v : Qc) : matrix :=
  alter (λ row, <[c:=v]> row) r m.

(** [for i in range(n): for j in range(i, n)]. *)
Definition triangle_pairs (n : nat) : list (nat * nat) :=
  i ← seq 0 n; j ← seq i (n - i); [(i, j)].

Definition lookup_or {A} (e : exn) (o : option A) : result A :=
  match o with Some a => Ok a | None => Raise e end.

Section compute_similarity_matrix.
Variable fingerprints : gmap Qc fingerprint.

(** [sorted(fingerprints.keys())]. *)
Definition sorted_keys : list Qc := merge_sort Qcle (elements (dom fingerprints)).

(** The body of the inner loop, with the matrix as state. *)
Definition fill_cell (times : list Qc) (m : matrix) (ij : nat * nat) : result matrix :=
  let '(i, j) := ij in
  ti ← lookup_or IndexError (times !! i);
  fp1 ← lookup_or KeyError (fingerprints !! ti);
  tj ← lookup_or IndexError (times !! j);
  fp2 ← lookup_or KeyError (fingerprints !! tj);
  ne ← np_not_equal fp1 fp2;
  let distance := np_sum ne in
  let similarity := similarity_of distance fp1 in
  Ok (mat_set (mat_set m i j similarity) j i similarity).

Definition compute_similarity_matrix : result (matrix * list Qc) :=
  let times := sorted_keys in
  let n := length times in
  similarity_matrix ← foldlM (fill_cell times) (np_zeros n) (triangle_pairs n);
  Ok (similarity_matrix, times).
End compute_similarity_matrix.

(** ** Programs with a state and exceptions *)

Definition prog (S A : Type) : Type := S → S * result A.

Global Instance prog_ret {S} : MRet (prog S) := λ A a s, (s, Ok a).

Global Instance prog_bind {S} : MBind (prog S) := λ A B f m s,
  match m s with
  | (s', Ok a) => f a s'
  | (s', Raise e) => (s', Raise e)
  end.

Definition lift {S A} (r : result A) : prog S A := λ s, (s, r).

Definition modify {S} (f : S → S) : prog S unit := λ s, (f s, Ok ()).

(** [try: m  except Exception as e: handler e]. *)
Definition try_except {S A} (m : prog S A) (handler : exn → prog S A) : prog S A :=
  λ s, match m s with
       | (s', Ok a) => (s', Ok a)
       | (s', Raise e) => handler e s'
       end.

(** ** detect_intro *)

(** The state of the [cv2.VideoCapture] owned by one extractor. *)
Inductive handle : Type := Unopened | Held | Released.

Global Instance handle_eq_dec : EqDecision handle.
Proof. solve_decision. Defined.

(** What the media layer reports for one file: whether the capture opens, the
    frame rate it reports, and the outcome of [extract_fingerprints]. *)
Record Video : Type := {
  video_opens : bool;
  video_fps : Qc;
  video_fingerprints : result (gmap Qc fingerprint)
}.

Inductive DetectionResult : Type :=
  | NotFound
  | Found (start_time end_time duration confidence : Qc).

Global Instance DetectionResult_eq_dec : EqDecision DetectionResult.
Proof. solve_decision. Defined.

(** [VideoProcessor.__init__]: open the capture, then
    [duration = frame_count / fps]. *)
Definition VideoProcessor_init (video : Video) : prog handle unit :=
  modify (λ h, if video_opens video then Held else h) ;;
  if decide (video_fps video = 0%Qc) then lift (Raise ZeroDivisionError)
  else mret ().

(** [VideoProcessor.release]: [if self.cap: self.cap.release()]. *)
Definition release_resources : prog handle unit :=
  modify (λ _, Released).

Definition best_of (candidates : list Candidate) : DetectionResult :=
  match candidates with
  | [] => NotFound
  | best_candidate :: _ =>
      Found (start_time best_candidate) (end_time best_candidate)
            (duration best_candidate) (similarity_score best_candidate)
  end.

Definition detect_intro (self : IntroDetector) (video : Video)
  : prog handle DetectionResult :=
  VideoProcessor_init video ;;
  fingerprints ← lift (video_fingerprints video);
  '(similarity_matrix, times) ← lift (compute_similarity_matrix fingerprints);
  candidates ← lift (find_intro_candidates self similarity_matrix times);
  release_resources ;;
  mret (best_of candidates).

(** ** Batch drivers *)

(** [s.endswith(suffix)]. *)
Definition endswith (s suffix : string) : bool :=
  let ls := String.length s in
  let l := String.length suffix in
  bool_decide (l ≤ ls)%nat && String.eqb (String.substring (ls - l) l s) suffix.

(** [filename.endswith(('.mp4', '.avi', '.mkv'))]. *)
Definition supported (filename : string) : bool :=
  endswith filename ".mp4" || endswith filename ".avi" || endswith filename ".mkv".

(** What a batch run leaves behind: the final state of each file's capture
    and the contents of the output file, if it was written. *)
Record World : Type := {
  captures : gmap string handle;
  output_file : option (gmap string DetectionResult)
}.

Definition empty_world : World := {| captures := ∅; output_file := None |}.

(** [self.detect_intro(video_path)] on a fresh extractor, recorded in the world. *)
Definition run_detection (self : IntroDetector) (filename : string) (video : Video)
  : prog World DetectionResult :=
  λ w, let '(h, r) := detect_intro self video Unopened in
       ({| captures := <[filename := h]> (captures w);
           output_file := output_file w |}, r).

(** [json.dump(results, f)]. *)
Definition write_results (results : gmap string DetectionResult) : prog World unit :=
  modify (λ w, {| captures := captures w; output_file := Some results |}).

(** The loop of [IntroDetector.batch_detect_intros] over [os.listdir], with
    [results] as its state. *)
Fixpoint batch_loop (self : IntroDetector) (listing : list (string * Video))
    (results : gmap string DetectionResult)
  : prog World (gmap string DetectionResult) :=
  match listing with
  | [] => mret results
  | (filename, video) :: rest =>
      if supported filename then
        result ← run_detection self filename video;
        batch_loop self rest (<[filename := result]> results)
      else batch_loop self rest results
  end.

Definition batch_detect_intros (self : IntroDetector)
    (video_directory : list (string * Video))
  : prog World (gmap string DetectionResult) :=
  results ← batch_loop self video_directory ∅;
  write_results results ;;
  mret results.

(** [DataLoader.get_video_files] on a flat directory. *)
Definition get_video_files (data_dir : list (string * Video)) : list (string * Video) :=
  filter (λ f, supported f.1 = true) data_dir.

(** The loop of [main] in [scripts/run_detector.py]: each detection runs under
    [try ... except Exception]. *)
Fixpoint main_loop (detector : IntroDetector) (video_files : list (string * Video))
    (results : gmap string DetectionResult)
  : prog World (gmap string DetectionResult) :=
  match video_files with
  | [] => mret results
  | (file_name, video) :: rest =>
      results' ← try_except
                   (result ← run_detection detector file_name video;
                    mret (<[file_name := result]> results))
                   (λ _, mret results);
      main_loop detector rest results'
  end.

Definition main (detector : IntroDetector) (data_dir : list (string * Video))
  : prog World unit :=
  let video_files := get_video_files data_dir in
  match video_files with
  | [] => mret ()
  | _ =>
      results ← main_loop detector video_files ∅;
      write_results results
  end.

(** ** Vocabulary of the statements *)

(** Position-wise disjointness: any two entries at different positions do not
    overlap. *)
Definition pairwise_disjoint (l : list Candidate) : Prop :=
  ∀ a b c d, l !! a = Some c → l !! b = Some d → a ≠ b → ¬ overlaps c d.

(** The sorted list is descending in score. *)
Definition score_ge (c d : Candidate) : Prop :=
  (similarity_score d ≤ similarity_score c)%Qc.

(** An [n] by [n] array. *)
Definition square (n : nat) (m : matrix) : Prop :=
  length m = n ∧ Forall (λ row, length row = n) m.

(** The cell [(r, c)] of an array, when present. *)
Definition cell (m : matrix) (r c : nat) : option Qc :=
  row ← m !! r; row !! c.

(** The pairs whose body runs past the [continue] guard. *)
Definition examined (self : IntroDetector) (times : list Qc) (i j : Z) : Prop :=
  (i, j) ∈ index_pairs self times ∧ within_max_length self times i j = Ok true.

Global Instance examined_dec self times i j : Decision (examined self times i j).
Proof. unfold examined. apply _. Defined.

(** The diagonal cell [(i + k, j + k)] is readable and strictly above the
    threshold, respectively readable and not above it. *)
Definition cell_above (self : IntroDetector) (m : matrix) (i j k : Z) : Prop :=
  ∃ s, mat_index m (i + k) (j + k) = Ok s ∧ (similarity_threshold self < s)%Qc.

Definition cell_not_above (self : IntroDetector) (m : matrix) (i j k : Z) : Prop :=
  ∃ s, mat_index m (i + k) (j + k) = Ok s ∧ ¬ (similarity_threshold self < s)%Qc.

(** [c] is the candidate appended while scanning the pair [(i, j)], with
    [end_offset] the state the extension loop ended in. *)
Definition emitted_at (self : IntroDetector) (similarity_matrix : matrix)
    (times : list Qc) (i j end_offset : Z) (c : Candidate) : Prop :=
  ∃ window ti te,
    examined self times i j ∧
    probe_window similarity_matrix times i j = Ok window ∧
    (similarity_threshold self < np_mean window)%Qc ∧
    extend_match self similarity_matrix i j (extension_range self times j) 0
      = Ok end_offset ∧
    py_index times i = Ok ti ∧
    py_index times (i + end_offset) = Ok te ∧
    c = {| start_time := ti; end_time := te; duration := (te - ti)%Qc;
           similarity_score := np_mean window |}.



(** The bound of the extension walk in the words of the specification: the
    offset [k] stays within [max_intro_length] converted to samples at the
    sampling rate, and within the remaining extent of the matrix. *)
Definition spec_max_intro_length_samples (self : IntroDetector)
    (sampling_rate : Qc) : Qc :=
  (max_intro_length self * sampling_rate)%Qc.

Definition spec_extension_bound (self : IntroDetector) (sampling_rate : Qc)
    (times : list Qc) (j k : Z) : Prop :=
  (Qc_of_Z k ≤ spec_max_intro_length_samples self sampling_rate)%Qc ∧
  k < Z.of_nat (length times) - j.

(** The fingerprint of the [i]-th sample in timestamp order. *)
Definition fingerprint_at (fingerprints : gmap Qc fingerprint) (i : nat)
  : option fingerprint :=
  t ← sorted_keys fingerprints !! i; fingerprints !! t.

(** The similarity of the [a]-th and [b]-th samples in timestamp order. *)
Definition pair_similarity (fingerprints : gmap Qc fingerprint) (a b : nat) : Qc :=
  match fingerprint_at fingerprints a, fingerprint_at fingerprints b with
  | Some fp1, Some fp2 => similarity_of (np_sum (zip_with xorb fp1 fp2)) fp1
  | _, _ => 0%Qc
  end.

(** Everything [detect_intro] computes between opening the capture and
    releasing it. *)
Definition detection_pipeline (self : IntroDetector) (video : Video)
  : result (list Candidate) :=
  if decide (video_fps video = 0%Qc) then Raise ZeroDivisionError
  else
    fingerprints ← video_fingerprints video;
    '(similarity_matrix, times) ← compute_similarity_matrix fingerprints;
    find_intro_candidates self similarity_matrix times.

(** ** Concrete inputs *)

(** [IntroDetector()] with the defaults of its constructor. *)
Definition default_detector : IntroDetector :=
  {| min_intro_length := Qc_of_Z 2;
     max_intro_length := Qc_of_Z 30;
     similarity_threshold := Q2Qc (4 # 5) |}.

Definition detector_with_min (min_length : Qc) : IntroDetector :=
  {| min_intro_length := min_length;
     max_intro_length := Qc_of_Z 30;
     similarity_threshold := Q2Qc (4 # 5) |}.

(** The timestamps [0, 2, 4, ...] of [n] samples at 0.5 samples per second. *)
Definition sample_times (n : nat) : list Qc :=
  (λ k, Qc_of_Z (2 * k)) <$> seqZ 0 (Z.of_nat n).

Definition constant_matrix (n : nat) (v : Qc) : matrix :=
  replicate n (replicate n v).

(** An [n] by [n] matrix of ones with a single 0 in the cell [(r, c)]. *)
Definition gap_matrix (n r c : nat) : matrix :=
  mat_set (constant_matrix n 1%Qc) r c 0%Qc.

(** A file that opens at 25 frames per second and yields the given samples. *)
Definition video_of (samples : list (Qc * fingerprint)) : Video :=
  {| video_opens := true;
     video_fps := Qc_of_Z 25;
     video_fingerprints := Ok (list_to_map samples) |}.

(** [n] samples of one unchanging picture. *)
Definition still_video (n : nat) : Video :=
  video_of ((λ t, (t, [true; false; true; true])) <$> sample_times n).

(** A file that cannot be opened: the capture reports 0 frames per second. *)
Definition unreadable_video : Video :=
  {| video_opens := false;
     video_fps := 0%Qc;
     video_fingerprints := Raise MediaError |}.

(** Three samples whose fingerprints differ pairwise. *)
Definition distinct_video : Video :=
  video_of [ (Qc_of_Z 0, [true; true; true; true]);
             (Qc_of_Z 2, [false; false; true; true]);
             (Qc_of_Z 4, [false; false; false; false]) ].

(** Two samples with opposite fingerprints. *)
Definition contrast_video : Video :=
  video_of [ (Qc_of_Z 0, [true; true; true; true]);
             (Qc_of_Z 2, [false; false; false; false]) ].

(** Every cell off the main diagonal is strictly below the threshold. *)
Definition off_diagonal_below (self : IntroDetector) (m : matrix) : Prop :=
  ∀ a b s, a ≠ b → cell m a b = Some s → (s < similarity_threshold self)%Qc.

(** A directory whose first video cannot be opened. *)
Definition failing_directory : list (string * Video) :=
  [ ("a.mp4", unreadable_video); ("b.mp4", still_video 4); ("notes.txt", still_video 4) ].

(** ** Further concrete inputs *)

(** Twelve samples, one per second, forming two scenes of six samples: two
    samples are similar exactly when they lie in the same scene. *)
Definition two_scene_matrix : matrix :=
  (λ a, (λ b, if bool_decide ((a < 6)%nat ↔ (b < 6)%nat) then 1%Qc else 0%Qc)
          <$> seq 0 12) <$> seq 0 12.

Definition second_times (n : nat) : list Qc := Qc_of_Z <$> seqZ 0 (Z.of_nat n).

(** A detector with threshold 0.5. *)
Definition lenient_detector : IntroDetector :=
  {| min_intro_length := Qc_of_Z 2;
     max_intro_length := Qc_of_Z 30;
     similarity_threshold := Q2Qc (1 # 2) |}.

(** Two one-dimensional arrays can be compared elementwise: equal lengths, or
    one of them has length one. *)
Definition compatible_shapes (fp1 fp2 : fingerprint) : Prop :=
  length fp1 = length fp2 ∨ length fp1 = 1%nat ∨ length fp2 = 1%nat.

(** Two samples whose fingerprints have different lengths. *)
Definition ragged_fingerprints : gmap Qc fingerprint :=
  list_to_map [ (Qc_of_Z 0, [true; true; true; true]);
                (Qc_of_Z 2, [false; false; false]) ].

(** ** VideoProcessor: perceptual hash *)

(** [dct[:8, :8]]. *)
Definition low_frequencies (dct : matrix) : matrix := take 8 <$> take 8 dct.

(** [ndarray.flatten()], row by row. *)
Definition flatten (m : matrix) : list Qc := concat m.

(** [np.median] of all entries: the middle entry of the sorted values, or
    the mean of the two middle entries.  For no entries numpy yields NaN,
    which lies outside this model. *)
Definition np_median (xs : list Qc) : Qc :=
  let s := merge_sort Qcle xs in
  let n := length s in
  if Nat.even n
  then ((default 0 (s !! (n / 2 - 1)%nat) + default 0 (s !! (n / 2)%nat))
          / Qc_of_Z 2)%Qc
  else default 0%Qc (s !! (n / 2)%nat).

(** The last four lines of [get_frame_fingerprint], on the DCT of the
    resized grey frame: [(dct[:8, :8] > np.median(dct[:8, :8])).flatten()]. *)
Definition hash_bits (dct : matrix) : fingerprint :=
  let dct_low_freq := low_frequencies dct in
  let med := np_median (flatten dct_low_freq) in
  (λ x, bool_decide (med < x)%Qc) <$> flatten dct_low_freq.

(** A 16 by 16 array with entries [0, 1, 2, ...], row by row. *)
Definition ramp_dct : matrix :=
  (λ r, (λ c, Qc_of_Z (Z.of_nat (16 * r + c))) <$> seq 0 16) <$> seq 0 16.

(** ** VideoProcessor and the sampling walks *)

(** What the code asks of OpenCV.  [frame_dct n frame] is
    [cv2.dct(np.float32(cv2.resize(cv2.cvtColor(frame, COLOR_BGR2GRAY), (n, n))))],
    [frame_histogram] is [compute_frame_histogram], [compare_hist] is
    [cv2.compareHist(_, _, cv2.HISTCMP_CORREL)]. *)
Class OpenCV : Type := {
  Frame : Type;
  Histogram : Type;
  frame_dct : nat → Frame → matrix;
  frame_histogram : Frame → Histogram;
  compare_hist : Histogram → Histogram → Qc
}.

(** A [cv2.VideoCapture]: whether it opened, the two properties the code
    reads, and the frame [read()] returns after seeking to a frame number. *)
Record VideoCapture `{OpenCV} : Type := {
  cap_opened : bool;
  cap_fps : Qc;
  cap_frame_count : Qc;
  cap_frame : Z → option Frame
}.

Record VideoProcessor `{OpenCV} : Type := {
  vp_cap : VideoCapture;
  vp_fps : Qc;
  vp_frame_count : Z;
  vp_duration : Qc
}.

(** [VideoProcessor.__init__]. *)
Definition new_VideoProcessor `{OpenCV} (cap : VideoCapture) : result VideoProcessor :=
  let fps := cap_fps cap in
  let frame_count := py_int (cap_frame_count cap) in
  if decide (fps = 0%Qc) then Raise ZeroDivisionError
  else Ok {| vp_cap := cap; vp_fps := fps; vp_frame_count := frame_count;
             vp_duration := (Qc_of_Z frame_count / fps)%Qc |}.

(** [int(time_point * self.fps)]. *)
Definition frame_number `{OpenCV} (self : VideoProcessor) (time_point : Qc) : Z :=
  py_int (time_point * vp_fps self).

(** [VideoProcessor.extract_frame]: [None] when [read()] fails. *)
Definition extract_frame `{OpenCV} (self : VideoProcessor) (time_point : Qc)
  : option Frame :=
  cap_frame (vp_cap self) (frame_number self time_point).

(** [VideoProcessor.get_frame_fingerprint]. *)
Definition get_frame_fingerprint `{OpenCV} (frame : Frame) (hash_size : nat)
  : fingerprint :=
  hash_bits (frame_dct hash_size frame).

Record FingerprintExtractor `{OpenCV} : Type := {
  video_processor : VideoProcessor;
  sampling_rate : Qc
}.

(** The loop shared by the two walks of [FingerprintExtractor]:
    [while current_time < duration: body; current_time += 1 / sampling_rate].
    The result is [None] when [fuel] iterations did not end the loop. *)
Fixpoint sampling_loop {St} (duration rate : Qc) (body : St → Qc → St)
    (fuel : nat) (current_time : Qc) (s : St) : option (result St) :=
  if decide (current_time < duration)%Qc then
    match fuel with
    | O => None
    | S fuel' =>
        let s' := body s current_time in
        if decide (rate = 0%Qc) then Some (Raise ZeroDivisionError)
        else sampling_loop duration rate body fuel'
               (current_time + 1 / rate)%Qc s'
    end
  else Some (Ok s).

(** The body of the loop of [extract_fingerprints]. *)
Definition fingerprint_step `{OpenCV} (self : FingerprintExtractor)
    (fingerprints : gmap Qc fingerprint) (current_time : Qc)
  : gmap Qc fingerprint :=
  match extract_frame (video_processor self) current_time with
  | Some frame => <[current_time := get_frame_fingerprint frame 16]> fingerprints
  | None => fingerprints
  end.

Definition extract_fingerprints `{OpenCV} (self : FingerprintExtractor) (fuel : nat)
  : option (result (gmap Qc fingerprint)) :=
  sampling_loop (vp_duration (video_processor self)) (sampling_rate self)
    (fingerprint_step self) fuel 0%Qc ∅.

(** The body of the loop of [extract_scene_transitions], on the pair
    [(transitions, prev_hist)]. *)
Definition transition_step `{OpenCV} (self : FingerprintExtractor) (threshold : Qc)
    (s : list Qc * option Histogram) (current_time : Qc)
  : list Qc * option Histogram :=
  let '(transitions, prev_hist) := s in
  match extract_frame (video_processor self) current_time with
  | Some frame =>
      let hist := frame_histogram frame in
      let transitions' :=
        match prev_hist with
        | Some prev =>
            if decide (compare_hist hist prev < threshold)%Qc
            then transitions ++ [current_time]
            else transitions
        | None => transitions
        end in
      (transitions', Some hist)
  | None => (transitions, prev_hist)
  end.

Definition extract_scene_transitions `{OpenCV} (self : FingerprintExtractor)
    (threshold : Qc) (fuel : nat) : option (result (list Qc)) :=
  match sampling_loop (vp_duration (video_processor self)) (sampling_rate self)
          (transition_step self threshold) fuel 0%Qc ([], None) with
  | Some (Ok (transitions, _)) => Some (Ok transitions)
  | Some (Raise e) => Some (Raise e)
  | None => None
  end.

(** The timestamps [0, 1/rate, 2/rate, ...], [count] of them. *)
Definition sample_points (rate : Qc) (count : nat) : list Qc :=
  (λ k, Qc_of_Z k * (1 / rate))%Qc <$> seqZ 0 (Z.of_nat count).

(** The number of sample points below [duration]. *)
Definition sample_count (duration rate : Qc) : nat :=
  Z.to_nat (Qceiling (duration * rate)%Qc).

(** The sample times at which a frame can be decoded. *)
Definition decoded_points `{OpenCV} (self : FingerprintExtractor) (points : list Qc)
  : list Qc :=
  filter (λ t, is_Some (extract_frame (video_processor self) t)) points.

(** A stand-in for OpenCV on pictures numbered 0, 1, 2, ...: the DCT of
    picture [f] is a fixed [n] by [n] pattern, its histogram is its number,
    and two histograms correlate fully when equal and not at all otherwise. *)
Definition toy_cv : OpenCV :=
  {| Frame := nat;
     Histogram := nat;
     frame_dct := λ n f,
       (λ r, (λ c, Qc_of_Z (Z.of_nat ((r + f) * c))) <$> seq 0 n) <$> seq 0 n;
     frame_histogram := λ f, f;
     compare_hist := λ h1 h2, if decide (h1 = h2) then 1%Qc else 0%Qc |}.

(** A capture of 100 frames at 25 frames per second showing picture 0 for
    two seconds and then picture 1. *)
Definition toy_capture : @VideoCapture toy_cv :=
  {| cap_opened := true;
     cap_fps := Qc_of_Z 25;
     cap_frame_count := Qc_of_Z 100;
     cap_frame := λ n, if decide (0 ≤ n < 100)
                       then Some (Z.to_nat (n / 50) : @Frame toy_cv) else None |}.

Definition toy_processor : @VideoProcessor toy_cv :=
  {| vp_cap := toy_capture; vp_fps := Qc_of_Z 25; vp_frame_count := 100;
     vp_duration := (Qc_of_Z 100 / Qc_of_Z 25)%Qc |}.

(** [FingerprintExtractor(video_path)] with the default sampling rate 0.5. *)
Definition toy_extractor : @FingerprintExtractor toy_cv :=
  {| video_processor := toy_processor; sampling_rate := Q2Qc (1 # 2) |}.

Definition toy_extractor_with_rate (rate : Qc) : @FingerprintExtractor toy_cv :=
  {| video_processor := toy_processor; sampling_rate := rate |}.

(** A capture that opened but holds no frame. *)
Definition empty_processor : @VideoProcessor toy_cv :=
  {| vp_cap := {| cap_opened := true; cap_fps := Qc_of_Z 25;
                  cap_frame_count := 0%Qc; cap_frame := λ _, None |};
     vp_fps := Qc_of_Z 25; vp_frame_count := 0;
     vp_duration := (Qc_of_Z 0 / Qc_of_Z 25)%Qc |}.

(** Detection returns on every supported file of a listing. *)
Definition all_detections_return (self : IntroDetector)
    (listing : list (string * Video)) : Prop :=
  Forall (λ f, supported f.1 = true →
               ∃ r, (detect_intro self f.2 Unopened).2 = Ok r) listing.

(** A directory of two readable videos and a text file. *)
Definition healthy_directory : list (string * Video) :=
  [ ("a.mp4", still_video 4); ("notes.txt", unreadable_video); ("b.mkv", still_video 1) ].

(** ** DataLoader *)

(** One entry of the annotation file: a JSON object whose [start_time] and
    [end_time] may be missing. *)
Record Annotation : Type := {
  annotated_start : option Qc;
  annotated_end : option Qc
}.

(** [max(a, b)] and [min(a, b)] of Python: the first argument wins ties. *)
Definition py_max (a b : Qc) : Qc := if decide (a < b)%Qc then b else a.
Definition py_min (a b : Qc) : Qc := if decide (b < a)%Qc then b else a.

(** [sum(xs)]. *)
Definition py_sum (xs : list Qc) : Qc := foldl Qcplus 0%Qc xs.

(** [pred.get('found', False)], [pred.get('start_time', 0)] and
    [pred.get('end_time', 0)] on a detection result. *)
Definition pred_found (pred : DetectionResult) : bool :=
  match pred with Found _ _ _ _ => true | NotFound => false end.

Definition pred_start_time (pred : DetectionResult) : Qc :=
  match pred with Found s _ _ _ => s | NotFound => 0%Qc end.

Definition pred_end_time (pred : DetectionResult) : Qc :=
  match pred with Found _ e _ _ => e | NotFound => 0%Qc end.

(** The three lines computing [iou] in [evaluate_predictions]. *)
Definition interval_iou (gt_start gt_end pred_start pred_end : Qc) : Qc :=
  let intersection :=
    py_max 0%Qc (py_min gt_end pred_end - py_max gt_start pred_start)%Qc in
  let union := (py_max pred_end gt_end - py_min pred_start gt_start)%Qc in
  if decide (0 < union)%Qc then (intersection / union)%Qc else 0%Qc.

(** The variables of the loop of [evaluate_predictions]. *)
Record Tally : Type := {
  tally_total : Z;
  tally_correct : Z;
  tally_iou_scores : list Qc
}.

Record Metrics : Type := {
  accuracy : Qc;
  mean_iou : Qc;
  metrics_correct : Z;
  metrics_total : Z
}.

(** A prediction enters the metrics when its file is annotated and an intro
    was found. *)
Definition counted (annotations : gmap string Annotation)
    (item : string * DetectionResult) : Prop :=
  is_Some (annotations !! item.1) ∧ pred_found item.2 = true.

Global Instance counted_dec annotations item : Decision (counted annotations item).
Proof. unfold counted. apply _. Defined.

(** The body of the loop over [predictions.items()]. *)
Definition evaluate_step (annotations : gmap string Annotation)
    (s : Tally) (item : string * DetectionResult) : Tally :=
  let '(file_name, pred) := item in
  match annotations !! file_name with
  | Some annotation =>
      if pred_found pred then
        let gt_start := default 0%Qc (annotated_start annotation) in
        let gt_end := default 0%Qc (annotated_end annotation) in
        let iou := interval_iou gt_start gt_end
                     (pred_start_time pred) (pred_end_time pred) in
        {| tally_total := tally_total s + 1;
           tally_correct := if decide (Q2Qc (1 # 2) < iou)%Qc
                            then tally_correct s + 1 else tally_correct s;
           tally_iou_scores := tally_iou_scores s ++ [iou] |}
      else s
  | None => s
  end.

Definition metrics_of (s : Tally) : Metrics :=
  {| accuracy := if decide (0 < tally_total s)
                 then (Qc_of_Z (tally_correct s) / Qc_of_Z (tally_total s))%Qc
                 else 0%Qc;
     mean_iou := match tally_iou_scores s with
                 | [] => 0%Qc
                 | _ :: _ => (py_sum (tally_iou_scores s)
                              / Qc_of_Z (Z.of_nat (length (tally_iou_scores s))))%Qc
                 end;
     metrics_correct := tally_correct s;
     metrics_total := tally_total s |}.

(** [DataLoader.evaluate_predictions], on the items of [predictions] in
    their iteration order. *)
Definition evaluate_predictions (annotations : gmap string Annotation)
    (predictions : list (string * DetectionResult)) : Metrics :=
  metrics_of (foldl (evaluate_step annotations)
                {| tally_total := 0; tally_correct := 0; tally_iou_scores := [] |}
                predictions).

(** The bound of a slice: [l[:k]] and [l[k:]] clip [k] to the list, negative
    [k] counting from the end. *)
Definition py_slice_bound (len : nat) (k : Z) : nat :=
  if decide (k < 0) then Z.to_nat (Z.max 0 (Z.of_nat len + k))
  else Z.to_nat (Z.min k (Z.of_nat len)).

Definition py_slice_to {A} (l : list A) (k : Z) : list A :=
  take (py_slice_bound (length l) k) l.

Definition py_slice_from {A} (l : list A) (k : Z) : list A :=
  drop (py_slice_bound (length l) k) l.

(** [DataLoader.get_train_test_split]. *)
Definition get_train_test_split (data_dir : list (string * Video)) (test_size : Qc)
  : list (string * Video) * list (string * Video) :=
  let video_files := get_video_files data_dir in
  let split_idx :=
    py_int (Qc_of_Z (Z.of_nat (length video_files)) * (1 - test_size))%Qc in
  (py_slice_to video_files split_idx, py_slice_from video_files split_idx).

(** Annotations and predictions for two files: one predicted exactly, one
    missed by the detector. *)
Definition sample_annotations : gmap string Annotation :=
  list_to_map
    [ ("a.mp4", {| annotated_start := Some (Qc_of_Z 0);
                   annotated_end := Some (Qc_of_Z 18) |});
      ("b.mp4", {| annotated_start := Some (Qc_of_Z 4);
                   annotated_end := Some (Qc_of_Z 10) |}) ].

Definition sample_predictions : list (string * DetectionResult) :=
  [ ("a.mp4", Found (Qc_of_Z 0) (Qc_of_Z 18) (Qc_of_Z 18) 1%Qc);
    ("b.mp4", NotFound);
    ("c.mp4", Found (Qc_of_Z 1) (Qc_of_Z 3) (Qc_of_Z 2) 1%Qc) ].

(** Goals over [Qc] with [+], [-] and the order, sent to [lra] over [Q]. *)
Ltac qc_to_q :=
  unfold Qcle, Qclt, Qcminus, Qcplus, Qcopp, Q2Qc in *; cbn [this] in *;
  rewrite ?Qred_correct in *.

Ltac qc_lra := qc_to_q; lra.

(** * Properties *)

(** ** The result monad *)

Lemma bind_Ok {A B} (m : result A) (f : A → result B) b :
  m ≫= f = Ok b ↔ ∃ a, m = Ok a ∧ f a = Ok b.
Proof.
  destruct m as [a|e]; simpl; split.
  - eauto.
  - intros (a' & [= ->] & ?). done.
  - done.
  - intros (a' & [=] & _).
Qed.

(** Invariant rule: a property kept by every successful iteration holds of
    the state the loop ends in. *)
Lemma foldlM_invariant {A S} (P : S → Prop) (f : S → A → result S) xs :
  (∀ s x s', x ∈ xs → P s → f s x = Ok s' → P s') →
  ∀ s s', P s → foldlM f s xs = Ok s' → P s'.
Proof.
  induction xs as [|x xs IH]; intros Hstep s s' Hs; simpl.
  - intros [= <-]. done.
  - intros (s1 & H1 & H2)%bind_Ok.
    eapply IH; [| |exact H2].
    + intros s2 y s3 Hy. apply Hstep. by right.
    + eapply Hstep; [left | exact Hs | exact H1].
Qed.

(** ** Python indexing *)

Lemma py_index_nonneg {A} (l : list A) (i : Z) x :
  0 ≤ i → py_index l i = Ok x ↔ l !! Z.to_nat i = Some x.
Proof.
  intros Hi. unfold py_index.
  destruct (decide (i < 0)) as [?|_]; [lia|].
  destruct (decide (0 ≤ i < Z.of_nat (length l))) as [Hin|Hout].
  - destruct (l !! Z.to_nat i) eqn:E; split; congruence.
  - split; [done|]. intros Hx%lookup_lt_Some. lia.
Qed.

Lemma py_index_in_range {A} (l : list A) (i : Z) :
  0 ≤ i < Z.of_nat (length l) → ∃ x, py_index l i = Ok x ∧ l !! Z.to_nat i = Some x.
Proof.
  intros Hi. destruct (lookup_lt_is_Some_2 l (Z.to_nat i)) as [x Hx]; [lia|].
  exists x. split; [|done]. apply py_index_nonneg; [lia | done].
Qed.

Lemma elem_of_py_range a b k : k ∈ py_range a b ↔ a ≤ k < b.
Proof. unfold py_range. rewrite elem_of_seqZ. lia. Qed.

(** ** The overlap filter *)

Lemma overlaps_sym c d : overlaps c d → overlaps d c.
Proof. unfold overlaps. tauto. Qed.

Lemma pairwise_disjoint_nil : pairwise_disjoint [].
Proof. intros a b c d Ha. by rewrite lookup_nil in Ha. Qed.

Lemma pairwise_disjoint_snoc l c :
  pairwise_disjoint l → ¬ Exists (overlaps c) l → pairwise_disjoint (l ++ [c]).
Proof.
  intros Hl Hc a b x y Ha Hb Hne Hov.
  rewrite Exists_exists in Hc.
  apply lookup_snoc_Some in Ha as [[Hla Ha]|[Hla <-]];
    apply lookup_snoc_Some in Hb as [[Hlb Hb]|[Hlb <-]].
  - by apply (Hl a b x y).
  - apply Hc. exists x. split; [by eapply list_elem_of_lookup_2|].
    by apply overlaps_sym.
  - apply Hc. exists y. split; [by eapply list_elem_of_lookup_2|done].
  - lia.
Qed.

Lemma filter_overlapping_spec candidates filtered :
  (length filtered < 5)%nat → pairwise_disjoint filtered →
  let r := filter_overlapping candidates filtered in
  (length r ≤ 5)%nat ∧ pairwise_disjoint r ∧
  ∀ c, c ∈ r → c ∈ filtered ∨ c ∈ candidates.
Proof.
  revert filtered. induction candidates as [|c rest IH]; intros filtered Hlen Hdis; simpl.
  - split_and!; [lia | done | auto].
  - destruct (decide (Exists (overlaps c) filtered)) as [Hov|Hov].
    + destruct (IH filtered Hlen Hdis) as (? & ? & Hin).
      split_and!; [done..|]. intros x Hx. destruct (Hin x Hx); [by left|right; by right].
    + assert (Hdis' : pairwise_disjoint (filtered ++ [c])) by by apply pairwise_disjoint_snoc.
      destruct (decide (5 ≤ length (filtered ++ [c]))%nat) as [Hfull|Hroom].
      * rewrite length_app in *. simpl in *. split_and!; [lia | done |].
        intros x [Hx|Hx%list_elem_of_singleton]%elem_of_app; [by left|].
        subst x. right. by left.
      * destruct (IH (filtered ++ [c])) as (? & ? & Hin); [lia | done |].
        split_and!; [done..|].
        intros x Hx. destruct (Hin x Hx) as [[?|Hc%list_elem_of_singleton]%elem_of_app|?].
        -- by left.
        -- subst x. right. by left.
        -- right. by right.
Qed.

(** ** The stable sort *)

Lemma insert_by_score_Permutation c l : insert_by_score c l ≡ₚ c :: l.
Proof.
  induction l as [|d l IH]; simpl; [done|].
  case_decide; [|done]. rewrite IH. apply Permutation_swap.
Qed.

Lemma sort_by_score_Permutation l : sort_by_score l ≡ₚ l.
Proof.
  induction l as [|c l IH]; simpl; [done|].
  rewrite insert_by_score_Permutation. by rewrite IH.
Qed.

Lemma elem_of_sort_by_score c l : c ∈ sort_by_score l ↔ c ∈ l.
Proof. by rewrite sort_by_score_Permutation. Qed.

Lemma insert_by_score_Sorted c l :
  Sorted score_ge l → Sorted score_ge (insert_by_score c l).
Proof.
  induction 1 as [|d l Hs IH Hhd]; simpl.
  - repeat constructor.
  - case_decide as Hlt.
    + constructor; [done|].
      destruct Hhd as [|e l Hde]; simpl.
      * constructor. by apply Qclt_le_weak.
      * case_decide; constructor; [done | by apply Qclt_le_weak].
    + constructor; [by constructor|]. constructor.
      by apply Qcnot_lt_le.
Qed.

Lemma sort_by_score_Sorted l : Sorted score_ge (sort_by_score l).
Proof.
  induction l as [|c l IH]; simpl; [constructor|]. by apply insert_by_score_Sorted.
Qed.

(** ** The search loops *)

Lemma scan_pair_Ok self M times i j cs :
  (i, j) ∈ index_pairs self times →
  scan_pair self M times i j = Ok cs →
  cs = [] ∨
  ∃ e c, cs = [c] ∧ emitted_at self M times i j e c ∧
         (min_intro_length self ≤ duration c ≤ max_intro_length self)%Qc.
Proof.
  intros Hin. unfold scan_pair.
  intros ([] & Hgate & H)%bind_Ok; [|left; congruence].
  apply bind_Ok in H as (window & Hwin & H).
  destruct (decide (similarity_threshold self < np_mean window)%Qc) as [Hthr|];
    [|left; congruence].
  apply bind_Ok in H as (e & Hext & H).
  apply bind_Ok in H as (te & Hte & H).
  apply bind_Ok in H as (ti & Hti & H).
  destruct (decide _) as [Hdur|]; [|left; congruence].
  injection H as <-. right. eexists e, _. split; [done|]. split; [|exact Hdur].
  exists window, ti, te. by split_and!.
Qed.

Lemma collect_candidates_elem self M times cs c :
  collect_candidates self M times = Ok cs → c ∈ cs →
  ∃ i j e, emitted_at self M times i j e c ∧
           (min_intro_length self ≤ duration c ≤ max_intro_length self)%Qc.
Proof.
  unfold collect_candidates. intros Hfold. revert c.
  eapply (foldlM_invariant
            (λ cs, ∀ c, c ∈ cs → ∃ i j e, emitted_at self M times i j e c ∧
               (min_intro_length self ≤ duration c ≤ max_intro_length self)%Qc));
    [| |exact Hfold].
  - intros s [i j] s' Hin Hs (new & Hscan & [= <-])%bind_Ok c.
    intros [?|Hc]%elem_of_app; [by apply Hs|].
    destruct (scan_pair_Ok _ _ _ _ _ _ Hin Hscan) as [->|(e & c' & -> & Hem & Hdur)].
    + by apply elem_of_nil in Hc.
    + apply list_elem_of_singleton in Hc as ->. eauto.
  - intros c Hc. by apply elem_of_nil in Hc.
Qed.

Lemma find_intro_candidates_Ok self M times l :
  find_intro_candidates self M times = Ok l ↔
  ∃ cs, collect_candidates self M times = Ok cs ∧
        l = filter_overlapping (sort_by_score cs) [].
Proof.
  unfold find_intro_candidates. rewrite bind_Ok. split.
  - intros (cs & Hcs & [= <-]). eauto.
  - intros (cs & Hcs & ->). eauto.
Qed.

Lemma find_intro_candidates_elem self M times l c :
  find_intro_candidates self M times = Ok l → c ∈ l →
  ∃ i j e, emitted_at self M times i j e c ∧
           (min_intro_length self ≤ duration c ≤ max_intro_length self)%Qc.
Proof.
  intros (cs & Hcs & ->)%find_intro_candidates_Ok Hc.
  destruct (filter_overlapping_spec (sort_by_score cs) []) as (_ & _ & Hin);
    [simpl; lia | apply pairwise_disjoint_nil |].
  destruct (Hin c Hc) as [Hnil|Hsorted]; [by apply elem_of_nil in Hnil|].
  apply (proj1 (elem_of_sort_by_score _ _)) in Hsorted.
  exact (collect_candidates_elem _ _ _ _ _ Hcs Hsorted).
Qed.

Lemma elem_of_index_pairs self times i j :
  (i, j) ∈ index_pairs self times ↔
  0 ≤ i < Z.of_nat (length times) ∧
  i + py_int (min_intro_length self) ≤ j < Z.of_nat (length times).
Proof.
  unfold index_pairs. rewrite list_elem_of_bind. split.
  - intros (i' & Hj & Hi). apply list_elem_of_bind in Hj as (j' & Hp & Hj).
    apply list_elem_of_singleton in Hp as [= -> ->].
    apply elem_of_py_range in Hi, Hj. lia.
  - intros [Hi Hj]. exists i. split; [|apply elem_of_py_range; lia].
    apply list_elem_of_bind. exists j. split; [by apply list_elem_of_singleton|].
    apply elem_of_py_range; lia.
Qed.

Lemma mapM_result_Ok {A B} (f : A → result B) (l : list A) (k : list B) :
  mapM f l = Ok k ↔ Forall2 (λ x y, f x = Ok y) l k.
Proof.
  revert k. induction l as [|x l IH]; intros k; simpl.
  - split; [intros [= <-]; constructor | by inversion 1].
  - split.
    + intros (y & Hy & (k' & Hk' & [= <-])%bind_Ok)%bind_Ok.
      constructor; [done | by apply IH].
    + inversion 1 as [|? y ? k' Hy Hk']; subst.
      apply bind_Ok. exists y. split; [done|].
      apply bind_Ok. exists k'. split; [by apply IH | done].
Qed.

Lemma mapM_result_total {A B} (f : A → result B) (l : list A) :
  (∀ x, x ∈ l → ∃ y, f x = Ok y) → ∃ k, mapM f l = Ok k.
Proof.
  induction l as [|x l IH]; intros Hf; simpl; [by eexists|].
  destruct (Hf x) as [y Hy]; [by left|].
  destruct IH as [k Hk]; [intros z Hz; apply Hf; by right|].
  exists (y :: k). rewrite Hy. simpl. by rewrite Hk.
Qed.

Lemma foldlM_total {A S} (f : S → A → result S) xs :
  (∀ s x, x ∈ xs → ∃ s', f s x = Ok s') → ∀ s, ∃ s', foldlM f s xs = Ok s'.
Proof.
  induction xs as [|x xs IH]; intros Hf s; simpl; [by eexists|].
  destruct (Hf s x) as [s1 H1]; [by left|]. rewrite H1. simpl.
  apply IH. intros s2 y Hy. apply Hf. by right.
Qed.

Lemma mat_index_in_range n (M : matrix) (r c : Z) :
  square n M → 0 ≤ r < Z.of_nat n → 0 ≤ c < Z.of_nat n →
  ∃ s, mat_index M r c = Ok s ∧ cell M (Z.to_nat r) (Z.to_nat c) = Some s.
Proof.
  intros [Hlen Hrows] Hr Hc. unfold mat_index, cell.
  destruct (py_index_in_range M r) as (row & Hrow & Hrow'); [lia|].
  rewrite Hrow, Hrow'. simpl.
  assert (length row = n) as Hl.
  { rewrite Forall_forall in Hrows. apply Hrows. by eapply list_elem_of_lookup_2. }
  destruct (py_index_in_range row c) as (s & Hs & Hs'); [lia|]. eauto.
Qed.

Lemma mat_index_nonneg (M : matrix) (r c : Z) s :
  0 ≤ r → 0 ≤ c →
  mat_index M r c = Ok s ↔ cell M (Z.to_nat r) (Z.to_nat c) = Some s.
Proof.
  intros Hr Hc. unfold mat_index, cell. rewrite bind_Ok. split.
  - intros (row & Hrow & Hs). apply py_index_nonneg in Hrow; [|done].
    apply py_index_nonneg in Hs; [|done]. by rewrite Hrow.
  - intros (row & Hrow & Hs)%bind_Some. exists row.
    by rewrite !py_index_nonneg.
Qed.

Section search_total.
Variable self : IntroDetector.
Variable M : matrix.
Variable times : list Qc.
Hypothesis M_square : square (length times) M.

Lemma probe_window_total i j :
  0 ≤ i ≤ j → ∃ w, probe_window M times i j = Ok w.
Proof.
  intros Hij. apply mapM_result_total. intros k Hk%elem_of_py_range.
  destruct (mat_index_in_range _ M (i + k) (j + k) M_square) as (s & Hs & _);
    [lia..|]. eauto.
Qed.

Lemma extend_match_total i j ks e0 :
  0 ≤ i ≤ j → (∀ k, k ∈ ks → 0 ≤ k < Z.of_nat (length times) - j) →
  ∃ e, extend_match self M i j ks e0 = Ok e ∧ (e = e0 ∨ e ∈ ks).
Proof.
  intros Hij. revert e0. induction ks as [|k ks IH]; intros e0 Hks; simpl.
  - eauto.
  - destruct (mat_index_in_range _ M (i + k) (j + k) M_square) as (s & Hs & _).
    { specialize (Hks k (list_elem_of_here _ _)). lia. }
    { specialize (Hks k (list_elem_of_here _ _)). lia. }
    rewrite Hs. simpl. case_decide; [|eauto].
    destruct (IH k) as (e & He & Hin).
    { intros k' Hk'. apply Hks. by right. }
    exists e. split; [done|]. right. destruct Hin as [->|?]; [left | by right].
Qed.

Lemma scan_pair_total i j :
  0 ≤ i ≤ j → j < Z.of_nat (length times) →
  ∃ cs, scan_pair self M times i j = Ok cs.
Proof.
  intros Hij Hj. unfold scan_pair, within_max_length.
  destruct (py_index_in_range times j) as (tj & -> & _); [lia|].
  destruct (py_index_in_range times i) as (ti & Hti & _); [lia|].
  rewrite Hti. simpl. case_bool_decide; [|by eexists].
  destruct (probe_window_total i j Hij) as [w ->]. simpl.
  case_decide; [|by eexists].
  destruct (extend_match_total i j (extension_range self times j) 0 Hij)
    as (e & -> & He).
  { intros k Hk%elem_of_py_range. lia. }
  simpl.
  assert (0 ≤ e < Z.of_nat (length times) - j) as Hrange.
  { destruct He as [->|He%elem_of_py_range]; lia. }
  destruct (py_index_in_range times (i + e)) as (te & -> & _); [lia|].
  simpl. case_decide; by eexists.
Qed.

Lemma collect_candidates_total :
  0 ≤ py_int (min_intro_length self) →
  ∃ cs, collect_candidates self M times = Ok cs.
Proof.
  intros Hmin. apply foldlM_total. intros s [i j] Hin%elem_of_index_pairs.
  destruct (scan_pair_total i j) as [cs ->]; [lia..|]. by eexists.
Qed.

Lemma find_intro_candidates_total :
  0 ≤ py_int (min_intro_length self) →
  ∃ l, find_intro_candidates self M times = Ok l.
Proof.
  intros Hmin. destruct (collect_candidates_total Hmin) as [cs Hcs].
  unfold find_intro_candidates. rewrite Hcs. by eexists.
Qed.
End search_total.

(** ** detect_intro *)

Lemma detect_intro_run self video h0 :
  detect_intro self video h0 =
  match detection_pipeline self video with
  | Ok candidates => (Released, Ok (best_of candidates))
  | Raise e => (if video_opens video then Held else h0, Raise e)
  end.
Proof.
  unfold detect_intro, detection_pipeline, VideoProcessor_init, release_resources,
    lift, modify, mbind, prog_bind, mret, prog_ret, result_bind.
  destruct (decide (video_fps video = 0%Qc)); [done|].
  destruct (video_fingerprints video) as [fps|e]; [|done].
  destruct (compute_similarity_matrix fps) as [[M times]|e]; [|done].
  by destruct (find_intro_candidates self M times).
Qed.

(** ** Claims about the candidate list *)

(** C5: the list returned by [find_intro_candidates] holds no two candidates
    whose intervals overlap (start of one before the end of the other, both
    ways), and it has at most five entries. *)
Theorem filtered_candidates_disjoint_capped self M times l :
  find_intro_candidates self M times = Ok l →
  pairwise_disjoint l ∧ (length l ≤ 5)%nat.
Proof.
  intros (cs & _ & ->)%find_intro_candidates_Ok.
  destruct (filter_overlapping_spec (sort_by_score cs) []) as (Hlen & Hdis & _);
    [simpl; lia | apply pairwise_disjoint_nil | done].
Qed.

Lemma filtered_candidates_disjoint_capped_witness :
  let M := constant_matrix 12 1%Qc in
  let l := value_or [] (find_intro_candidates default_detector M (sample_times 12)) in
  length l = 1%nat ∧ pairwise_disjoint l ∧ (length l ≤ 5)%nat.
Proof.
  intros M l. split; [vm_compute; reflexivity|].
  apply (filtered_candidates_disjoint_capped default_detector M (sample_times 12)).
  vm_compute. reflexivity.
Defined.

(** C6: every candidate returned by [find_intro_candidates] was appended for
    some start index [i] and extension [end_offset], its duration is
    [times[i + end_offset] - times[i]], and that duration lies between
    [min_intro_length] and [max_intro_length]. *)
Theorem candidate_duration_bounds self M times l c :
  find_intro_candidates self M times = Ok l → c ∈ l →
  (min_intro_length self ≤ duration c ≤ max_intro_length self)%Qc ∧
  ∃ i j end_offset ti te,
    emitted_at self M times i j end_offset c ∧
    py_index times i = Ok ti ∧ py_index times (i + end_offset) = Ok te ∧
    duration c = (te - ti)%Qc.
Proof.
  intros Hfind Hc.
  destruct (find_intro_candidates_elem _ _ _ _ _ Hfind Hc) as (i & j & e & Hem & Hdur).
  split; [done|].
  destruct Hem as (w & ti & te & Hex & Hw & Hthr & Hext & Hti & Hte & ->).
  exists i, j, e, ti, te. split_and!; [|done..].
  exists w, ti, te. by split_and!.
Qed.

Lemma candidate_duration_bounds_witness :
  let M := constant_matrix 12 1%Qc in
  let l := value_or [] (find_intro_candidates default_detector M (sample_times 12)) in
  ∃ c, l !! 0%nat = Some c ∧
       (min_intro_length default_detector ≤ duration c
          ≤ max_intro_length default_detector)%Qc.
Proof.
  intros M l. exists (default (Build_Candidate 0 0 0 0)%Qc (l !! 0%nat)).
  split; [vm_compute; reflexivity|].
  apply (candidate_duration_bounds default_detector M (sample_times 12) l).
  - vm_compute. reflexivity.
  - apply (list_elem_of_lookup_2 l 0%nat). vm_compute. reflexivity.
Defined.

Lemma detection_pipeline_Ok self video cs :
  detection_pipeline self video = Ok cs ↔
  video_fps video ≠ 0%Qc ∧
  ∃ fingerprints M times,
    video_fingerprints video = Ok fingerprints ∧
    compute_similarity_matrix fingerprints = Ok (M, times) ∧
    find_intro_candidates self M times = Ok cs.
Proof.
  unfold detection_pipeline. case_decide as Hfps.
  - split; [done | by intros [? _]].
  - rewrite bind_Ok. split.
    + intros (fps & Hfp & ([M times] & HM & Hfind)%bind_Ok). split; [done|].
      by exists fps, M, times.
    + intros (_ & fps & M & times & Hfp & HM & Hfind). exists fps. split; [done|].
      apply bind_Ok. by exists (M, times).
Qed.

Lemma detect_intro_Ok self video h0 h r :
  detect_intro self video h0 = (h, Ok r) ↔
  h = Released ∧ ∃ cs, detection_pipeline self video = Ok cs ∧ r = best_of cs.
Proof.
  rewrite detect_intro_run. destruct (detection_pipeline self video) as [cs|e]; split.
  - intros [= <- <-]. eauto.
  - intros (-> & cs' & [= <-] & ->). done.
  - done.
  - intros (_ & cs' & [=] & _).
Qed.

(** C10: every candidate returned by [find_intro_candidates] carries as score
    the mean of a probe window, and that score is strictly above
    [similarity_threshold]; hence the confidence of any found result of
    [detect_intro] is strictly above the threshold. *)
Theorem candidate_score_above_threshold self :
  (∀ M times l c,
     find_intro_candidates self M times = Ok l → c ∈ l →
     (similarity_threshold self < similarity_score c)%Qc ∧
     ∃ i j window, probe_window M times i j = Ok window ∧
                   similarity_score c = np_mean window) ∧
  (∀ video h0 h s e d confidence,
     detect_intro self video h0 = (h, Ok (Found s e d confidence)) →
     (similarity_threshold self < confidence)%Qc).
Proof.
  assert (∀ M times l c,
     find_intro_candidates self M times = Ok l → c ∈ l →
     (similarity_threshold self < similarity_score c)%Qc ∧
     ∃ i j window, probe_window M times i j = Ok window ∧
                   similarity_score c = np_mean window) as Hsearch.
  { intros M times l c Hfind Hc.
    destruct (find_intro_candidates_elem _ _ _ _ _ Hfind Hc)
      as (i & j & e & (w & ti & te & _ & Hw & Hthr & _ & _ & _ & ->) & _).
    split; [done|]. by exists i, j, w. }
  split; [exact Hsearch|].
  intros video h0 h s e d conf (_ & cs & Hpipe & Hbest)%detect_intro_Ok.
  apply detection_pipeline_Ok in Hpipe as (_ & fps & M & times & _ & _ & Hfind).
  destruct cs as [|c cs]; simpl in Hbest; [done|].
  injection Hbest as -> -> -> ->.
  apply (Hsearch M times (c :: cs) c Hfind). by left.
Qed.

Lemma candidate_score_above_threshold_witness :
  let M := constant_matrix 12 1%Qc in
  let l := value_or [] (find_intro_candidates default_detector M (sample_times 12)) in
  let r := (detect_intro default_detector (still_video 4) Unopened).2 in
  (∃ c, l !! 0%nat = Some c ∧
        (similarity_threshold default_detector < similarity_score c)%Qc) ∧
  (∃ s e d confidence, r = Ok (Found s e d confidence) ∧
        (similarity_threshold default_detector < confidence)%Qc).
Proof.
  intros M l r.
  destruct (candidate_score_above_threshold default_detector) as [Hsearch Hdetect].
  split.
  - exists (default (Build_Candidate 0 0 0 0)%Qc (l !! 0%nat)).
    split; [vm_compute; reflexivity|].
    apply (Hsearch M (sample_times 12) l).
    + vm_compute. reflexivity.
    + apply (list_elem_of_lookup_2 l 0%nat). vm_compute. reflexivity.
  - pose (d := match value_or NotFound r with
               | Found s e d c => (s, e, d, c)
               | NotFound => (0, 0, 0, 0)%Qc
               end).
    exists d.1.1.1, d.1.1.2, d.1.2, d.2.
    split; [vm_compute; reflexivity|].
    apply (Hdetect (still_video 4) Unopened Released d.1.1.1 d.1.1.2 d.1.2 d.2).
    vm_compute. reflexivity.
Defined.

(** ** The extension loop *)

Lemma extend_match_range self M i j ks e0 e :
  extend_match self M i j ks e0 = Ok e → e = e0 ∨ e ∈ ks.
Proof.
  revert e0. induction ks as [|k ks IH]; intros e0; simpl.
  - intros [= <-]. by left.
  - intros (s & _ & H)%bind_Ok. case_decide.
    + destruct (IH _ H) as [->|?]; right; [left | by right].
    + injection H as <-. by left.
Qed.

Lemma extend_match_run self M i j (len : nat) a e0 e :
  extend_match self M i j (seqZ a (Z.of_nat len)) e0 = Ok e →
  (e = e0 ∧ (len = 0%nat ∨ cell_not_above self M i j a)) ∨
  (a ≤ e < a + Z.of_nat len ∧
   (∀ k, a ≤ k ≤ e → cell_above self M i j k) ∧
   (e + 1 < a + Z.of_nat len → cell_not_above self M i j (e + 1))).
Proof.
  revert a e0. induction len as [|len IH]; intros a e0.
  - rewrite seqZ_nil by done. intros [= <-]. left. auto.
  - rewrite seqZ_cons by lia. simpl.
    replace (Z.pred (Z.of_nat (S len))) with (Z.of_nat len) by lia.
    intros (s & Hs & H)%bind_Ok.
    destruct (decide (similarity_threshold self < s)%Qc) as [Habove|Hbelow].
    + right. assert (cell_above self M i j a) as Ha by by exists s.
      destruct (IH _ _ H) as [[-> Hstop]|(Hrange & Hrun & Hstop)].
      * split; [lia|]. split.
        -- intros k Hk. by replace k with a by lia.
        -- intros Hnext. destruct Hstop as [->|Hstop]; [lia|]. done.
      * split; [lia|]. split.
        -- intros k Hk. destruct (decide (k = a)) as [->|]; [done|].
           apply Hrun. lia.
        -- intros Hnext. apply Hstop. lia.
    + injection H as <-. left. split; [done|]. right. by exists s.
Qed.

(** C4: the extension loop walks [k] from 0 upward over
    [range(min(int(max_intro_length), n - j))]: the maximum length in
    seconds, truncated to an integer, is itself the bound on the number of
    samples, without conversion by a sampling rate.  The loop ends with
    [end_offset] the last [k] of the initial run of cells [(i + k, j + k)]
    strictly above the threshold, the cell after that run being the first one
    not above it (or the bound), and with [end_offset = 0] when that run is
    empty; what the cells after the first failure hold plays no part. *)
Theorem extension_stops_at_first_failure self M times i j :
  square (length times) M → 0 ≤ i ≤ j →
  let bound := Z.min (py_int (max_intro_length self)) (Z.of_nat (length times) - j) in
  ∃ end_offset,
    extend_match self M i j (extension_range self times j) 0 = Ok end_offset ∧
    ((0 ≤ end_offset < bound ∧
      (∀ k, 0 ≤ k ≤ end_offset → cell_above self M i j k) ∧
      (end_offset + 1 < bound → cell_not_above self M i j (end_offset + 1))) ∨
     (end_offset = 0 ∧ (bound ≤ 0 ∨ cell_not_above self M i j 0))).
Proof.
  intros Hsq Hij bound.
  destruct (extend_match_total self M times Hsq i j (extension_range self times j) 0 Hij)
    as (e & He & _).
  { intros k Hk%elem_of_py_range. lia. }
  exists e. split; [done|].
  unfold extension_range, py_range in He. fold bound in He.
  destruct (decide (bound ≤ 0)) as [Hb|Hb].
  - rewrite seqZ_nil in He by lia. injection He as <-. right. auto.
  - replace (bound - 0) with (Z.of_nat (Z.to_nat bound)) in He by lia.
    destruct (extend_match_run _ _ _ _ _ _ _ _ He) as [[-> Hstop]|(Hrange & Hrun & Hstop)].
    + right. split; [done|]. destruct Hstop as [?|?]; [lia | by right].
    + left. split; [lia|]. split; [done|]. intros ?. apply Hstop. lia.
Qed.

Lemma extension_stops_at_first_failure_witness :
  let M := gap_matrix 12 3 5 in
  ∃ end_offset,
    extend_match default_detector M 0 2
      (extension_range default_detector (sample_times 12) 2) 0 = Ok end_offset ∧
    end_offset = 2 ∧
    cell_not_above default_detector M 0 2 3 ∧
    cell_above default_detector M 0 2 4.
Proof.
  intros M.
  destruct (extension_stops_at_first_failure default_detector M (sample_times 12) 0 2)
    as (e & He & Hrun).
  - split; [reflexivity|]. vm_compute. repeat constructor.
  - lia.
  - exists e. split; [exact He|].
    assert (Ok e = Ok 2) as [= ->].
    { rewrite <- He. vm_compute. reflexivity. }
    split; [reflexivity|]. split.
    + destruct Hrun as [(_ & _ & Hstop)|[[=] _]].
      apply Hstop. vm_compute. reflexivity.
    + exists 1%Qc. split; vm_compute; reflexivity.
Defined.

(** The bound stated for C4 is not the one the walk obeys.  With the default
    [max_intro_length] of 30 seconds and 40 samples at 0.5 samples per second
    the maximum converted to samples is 15; on a matrix that is above the
    threshold everywhere the walk from the pair [(0, 2)] goes on to
    [k = 29 = int(max_intro_length) - 1], which spans 58 seconds. *)
Lemma extension_bound_counterexample :
  let self := default_detector in
  let times := sample_times 40 in
  let M := constant_matrix 40 1%Qc in
  spec_max_intro_length_samples self (Q2Qc (1 # 2)) = Qc_of_Z 15 ∧
  extend_match self M 0 2 (extension_range self times 2) 0 = Ok 29 ∧
  ¬ spec_extension_bound self (Q2Qc (1 # 2)) times 2 29 ∧
  ∃ t0 t29, times !! 0%nat = Some t0 ∧ times !! 29%nat = Some t29 ∧
            (max_intro_length self < t29 - t0)%Qc.
Proof.
  intros self times M. split_and!.
  - apply Qc_is_canon. vm_compute. reflexivity.
  - vm_compute. reflexivity.
  - intros [Hle _]. vm_compute in Hle. by apply Hle.
  - exists (Qc_of_Z 0), (Qc_of_Z 58). split_and!; vm_compute; reflexivity.
Qed.

(** ** The search domain *)





(** ** The top-ranked candidate *)

Lemma filter_overlapping_prefix candidates filtered :
  filtered `prefix_of` filter_overlapping candidates filtered.
Proof.
  revert filtered. induction candidates as [|c rest IH]; intros filtered; simpl.
  - done.
  - case_decide; [apply IH|]. case_decide.
    + by apply prefix_app_r.
    + trans (filtered ++ [c]); [by apply prefix_app_r | apply IH].
Qed.

Lemma score_ge_trans : Transitive score_ge.
Proof. intros c d e Hcd Hde. unfold score_ge in *. by trans (similarity_score d). Qed.

Lemma find_intro_candidates_head self M times cs c l :
  collect_candidates self M times = Ok cs →
  find_intro_candidates self M times = Ok (c :: l) →
  ∀ c', c' ∈ cs → (similarity_score c' ≤ similarity_score c)%Qc.
Proof.
  intros Hcs (cs' & Hcs' & Hl)%find_intro_candidates_Ok c' Hc'.
  assert (cs' = cs) as -> by congruence.
  pose proof (sort_by_score_Sorted cs) as Hsorted.
  apply elem_of_sort_by_score in Hc'.
  destruct (sort_by_score cs) as [|d rest] eqn:Hsort; [by apply elem_of_nil in Hc'|].
  assert (c = d) as ->.
  { simpl in Hl. destruct (decide (Exists (overlaps d) [])) as [Hex|_].
    - by apply Exists_nil in Hex.
    - simpl in Hl. destruct (filter_overlapping_prefix rest [d]) as [k Hk].
      rewrite Hk in Hl. by injection Hl. }
  apply Sorted_StronglySorted in Hsorted; [|apply score_ge_trans].
  apply StronglySorted_inv in Hsorted as [_ Hall].
  apply elem_of_cons in Hc' as [->|Hc']; [done|].
  rewrite Forall_forall in Hall. by apply Hall.
Qed.

(** C2, as the code has it: [detect_intro] releases the capture exactly when
    nothing before the release raises; when the constructor, the fingerprint
    walk, the matrix or the search raises, the exception leaves
    [detect_intro] with the capture still held (or never opened).  On the
    normal path no candidate gives [{found: False}], and otherwise the first
    candidate, whose score is the highest of all candidates collected, is
    returned with its score as confidence. *)
Theorem detect_intro_release_and_result self video :
  detect_intro self video Unopened =
    match detection_pipeline self video with
    | Ok candidates => (Released, Ok (best_of candidates))
    | Raise e => (if video_opens video then Held else Unopened, Raise e)
    end ∧
  best_of [] = NotFound ∧
  (∀ c l, best_of (c :: l) =
          Found (start_time c) (end_time c) (duration c) (similarity_score c)) ∧
  (∀ M times cs c l c',
     collect_candidates self M times = Ok cs →
     find_intro_candidates self M times = Ok (c :: l) →
     c' ∈ cs → (similarity_score c' ≤ similarity_score c)%Qc).
Proof.
  split_and!; [apply detect_intro_run | done | done |].
  intros M times cs c l c' Hcs Hfind. by eapply find_intro_candidates_head.
Qed.

Lemma detect_intro_release_and_result_witness :
  let M := constant_matrix 12 1%Qc in
  let times := sample_times 12 in
  let cs := value_or [] (collect_candidates default_detector M times) in
  let l := value_or [] (find_intro_candidates default_detector M times) in
  ∃ c, l !! 0%nat = Some c ∧
       Forall (λ c', (similarity_score c' ≤ similarity_score c)%Qc) cs.
Proof.
  intros M times cs l.
  exists (default (Build_Candidate 0 0 0 0)%Qc (l !! 0%nat)).
  split; [vm_compute; reflexivity|].
  apply Forall_forall. intros c' Hc'.
  destruct (detect_intro_release_and_result default_detector (still_video 1))
    as (_ & _ & _ & Htop).
  apply (Htop M times cs _ (drop 1 l) c'); [vm_compute; reflexivity..|exact Hc'].
Defined.

(** C2 does not hold on exceptional paths: with [min_intro_length = -1] and a one-sample video
    the search reads [similarity_matrix[1, 0]] of a 1 by 1 matrix and raises
    IndexError; [detect_intro] ends with the capture still held. *)
Lemma detect_intro_release_counterexample :
  let self := detector_with_min (- 1)%Qc in
  let video := still_video 1 in
  (∃ fingerprints M times,
     video_fingerprints video = Ok fingerprints ∧
     compute_similarity_matrix fingerprints = Ok (M, times) ∧
     length times = 1%nat ∧
     find_intro_candidates self M times = Raise IndexError) ∧
  detect_intro self video Unopened = (Held, Raise IndexError).
Proof.
  intros self video. split; [|vm_compute; reflexivity].
  pose (fps := value_or ∅ (video_fingerprints video)).
  exists fps, (value_or ([], []) (compute_similarity_matrix fps)).1,
         (value_or ([], []) (compute_similarity_matrix fps)).2.
  split_and!; vm_compute; reflexivity.
Qed.

(** ** Means of windows below the threshold *)

Lemma Qc_of_nat_S (n : nat) :
  Qc_of_Z (Z.of_nat (S n)) = (1 + Qc_of_Z (Z.of_nat n))%Qc.
Proof. by rewrite Nat2Z.inj_succ, <- Z.add_1_l, Z2Qc_inj_add, Z2Qc_inj_1. Qed.

Lemma Qc_of_nat_pos (n : nat) : (0 < n)%nat → (0 < Qc_of_Z (Z.of_nat n))%Qc.
Proof. intros Hn. rewrite <- Z2Qc_inj_0. apply (proj1 (Z2Qc_inj_lt 0 _)). lia. Qed.

Lemma Qc_sum_le t w :
  Forall (λ x, x ≤ t)%Qc w → (Qc_sum w ≤ Qc_of_Z (Z.of_nat (length w)) * t)%Qc.
Proof.
  induction 1 as [|x w Hx Hw IH].
  - change (Qc_of_Z (Z.of_nat (length []))) with (Qc_of_Z 0).
    rewrite Z2Qc_inj_0, Qcmult_0_l. done.
  - rewrite length_cons, Qc_of_nat_S, Qcmult_plus_distr_l, Qcmult_1_l.
    by apply Qcplus_le_compat.
Qed.

Lemma Qc_sum_lt t w :
  w ≠ [] → Forall (λ x, x < t)%Qc w →
  (Qc_sum w < Qc_of_Z (Z.of_nat (length w)) * t)%Qc.
Proof.
  intros Hne Hw. destruct Hw as [|x w Hx Hw]; [done|].
  rewrite length_cons, Qc_of_nat_S, Qcmult_plus_distr_l, Qcmult_1_l.
  change (Qc_sum (x :: w)) with (x + Qc_sum w)%Qc.
  apply Qclt_le_trans with (t + Qc_sum w)%Qc.
  - by apply Qcplus_lt_mono_r.
  - apply Qcplus_le_mono_l, Qc_sum_le.
    eapply Forall_impl; [exact Hw|]. intros y. apply Qclt_le_weak.
Qed.

Lemma np_mean_lt t w :
  w ≠ [] → Forall (λ x, x < t)%Qc w → (np_mean w < t)%Qc.
Proof.
  intros Hne Hw. unfold np_mean.
  assert (0 < Qc_of_Z (Z.of_nat (length w)))%Qc as Hpos.
  { apply Qc_of_nat_pos. destruct w; [done | simpl; lia]. }
  pose proof (Qc_sum_lt t w Hne Hw) as Hsum.
  apply (Qcmult_lt_compat_r _ _ (/ Qc_of_Z (Z.of_nat (length w)))) in Hsum;
    [|by apply Qcinv_pos].
  replace (Qc_of_Z (Z.of_nat (length w)) * t * / Qc_of_Z (Z.of_nat (length w)))%Qc
    with t in Hsum; [done|].
  rewrite (Qcmult_comm _ t), <- Qcmult_assoc, Qcmult_inv_r, Qcmult_1_r; [done|].
  intros Heq. rewrite Heq in Hpos. by apply (irreflexivity Qclt 0%Qc).
Qed.

Lemma collect_candidates_nil self M times :
  (∀ i j, (i, j) ∈ index_pairs self times → scan_pair self M times i j = Ok []) →
  collect_candidates self M times = Ok [].
Proof.
  unfold collect_candidates. generalize (index_pairs self times).
  induction l as [|[i j] l IH]; intros Hscan; simpl; [done|].
  rewrite (Hscan i j) by by left. simpl. apply IH.
  intros i' j' Hin. apply Hscan. by right.
Qed.

Lemma probe_window_cells M times i j w :
  probe_window M times i j = Ok w →
  length w = Z.to_nat (Z.min 20 (Z.of_nat (length times) - j)) ∧
  ∀ s, s ∈ w → ∃ k, 0 ≤ k < Z.min 20 (Z.of_nat (length times) - j) ∧
                    mat_index M (i + k) (j + k) = Ok s.
Proof.
  unfold probe_window. intros Hw%mapM_result_Ok. split.
  - apply Forall2_length in Hw. rewrite <- Hw. unfold py_range.
    rewrite length_seqZ. f_equal. lia.
  - intros s Hs. apply list_elem_of_lookup in Hs as [p Hp].
    destruct (Forall2_lookup_r _ _ _ _ _ Hw Hp) as (k & Hk & Hcell).
    exists k. split; [|done].
    apply list_elem_of_lookup_2, elem_of_py_range in Hk. lia.
Qed.

(** ** No candidate below the threshold *)

Lemma scan_pair_below_threshold self M times i j :
  square (length times) M → off_diagonal_below self M →
  (i, j) ∈ index_pairs self times → i < j →
  scan_pair self M times i j = Ok [].
Proof.
  intros Hsq Hbelow Hin Hij.
  pose proof Hin as (Hi & Hj)%elem_of_index_pairs.
  destruct (scan_pair_total self M times Hsq i j) as [cs Hcs]; [lia..|].
  rewrite Hcs. f_equal.
  destruct (scan_pair_Ok _ _ _ _ _ _ Hin Hcs)
    as [->|(e & c & -> & (w & ti & te & _ & Hw & Hthr & _) & _)]; [done|].
  exfalso. apply probe_window_cells in Hw as [Hlen Hcells].
  apply (irreflexivity Qclt (similarity_threshold self)).
  trans (np_mean w); [done|]. apply np_mean_lt.
  - intros ->. cbn [length] in Hlen. lia.
  - apply Forall_forall. intros s (k & Hk & Hs)%Hcells.
    apply mat_index_nonneg in Hs; [|lia..].
    eapply Hbelow; [|exact Hs]. lia.
Qed.

(** C8, as the code has it: when [int(min_intro_length) ≥ 1], so that the
    loops never pair a sample with itself, a matrix whose off-diagonal cells
    are all strictly below the threshold gives an empty candidate list, and
    [detect_intro] on a video with that matrix returns [{found: False}]. *)
Theorem no_candidate_below_threshold self M times :
  1 ≤ py_int (min_intro_length self) →
  square (length times) M → off_diagonal_below self M →
  find_intro_candidates self M times = Ok [] ∧
  ∀ video fingerprints h0,
    video_fps video ≠ 0%Qc →
    video_fingerprints video = Ok fingerprints →
    compute_similarity_matrix fingerprints = Ok (M, times) →
    detect_intro self video h0 = (Released, Ok NotFound).
Proof.
  intros Hmin Hsq Hbelow.
  assert (find_intro_candidates self M times = Ok []) as Hfind.
  { unfold find_intro_candidates. rewrite collect_candidates_nil; [done|].
    intros i j Hin. apply scan_pair_below_threshold; [done..|].
    apply elem_of_index_pairs in Hin. lia. }
  split; [done|]. intros video fps h0 Hfps Hfp HM.
  apply detect_intro_Ok. split; [done|]. exists []. split; [|done].
  apply detection_pipeline_Ok. split; [done|]. by exists fps, M, times.
Qed.

Lemma no_candidate_below_threshold_witness :
  let fingerprints := value_or ∅ (video_fingerprints distinct_video) in
  let Mt := value_or ([], []) (compute_similarity_matrix fingerprints) in
  length Mt.2 = 3%nat ∧
  find_intro_candidates default_detector Mt.1 Mt.2 = Ok [] ∧
  detect_intro default_detector distinct_video Unopened = (Released, Ok NotFound).
Proof.
  intros fingerprints Mt. split; [vm_compute; reflexivity|].
  destruct (no_candidate_below_threshold default_detector Mt.1 Mt.2) as [Hfind Hdetect].
  - vm_compute. discriminate.
  - split; [vm_compute; reflexivity|]. vm_compute. repeat constructor.
  - intros a b s Hab Hcell.
    destruct a as [|[|[|a]]], b as [|[|[|b]]]; try done;
      vm_compute in Hcell; try done; injection Hcell as <-; vm_compute; reflexivity.
  - split; [exact Hfind|].
    apply (Hdetect distinct_video fingerprints Unopened).
    + vm_compute. discriminate.
    + vm_compute. reflexivity.
    + vm_compute. reflexivity.
Defined.

(** C8 needs [int(min_intro_length) ≥ 1]: with [min_intro_length = 0.5] the loops pair each
    sample with itself; on two samples with opposite fingerprints every
    off-diagonal cell is 0, yet the diagonal run yields a candidate and
    [detect_intro] reports an intro. *)
Lemma no_candidate_below_threshold_counterexample :
  let self := detector_with_min (Q2Qc (1 # 2)) in
  let fingerprints := value_or ∅ (video_fingerprints contrast_video) in
  let Mt := value_or ([], []) (compute_similarity_matrix fingerprints) in
  compute_similarity_matrix fingerprints = Ok Mt ∧
  off_diagonal_below self Mt.1 ∧
  find_intro_candidates self Mt.1 Mt.2 ≠ Ok [] ∧
  detect_intro self contrast_video Unopened ≠ (Released, Ok NotFound) ∧
  ∃ s e d confidence,
    detect_intro self contrast_video Unopened
      = (Released, Ok (Found s e d confidence)) ∧
    (s, e, d, confidence) = (Qc_of_Z 0, Qc_of_Z 2, Qc_of_Z 2, Qc_of_Z 1).
Proof.
  intros self fingerprints Mt. split_and!.
  - vm_compute. reflexivity.
  - intros a b s Hab Hcell.
    destruct a as [|[|a]], b as [|[|b]]; try done;
      vm_compute in Hcell; try done; injection Hcell as <-; vm_compute; reflexivity.
  - vm_compute. discriminate.
  - vm_compute. discriminate.
  - pose (r := match value_or NotFound (detect_intro self contrast_video Unopened).2 with
               | Found s e d c => (s, e, d, c)
               | NotFound => (0, 0, 0, 0)%Qc
               end).
    exists r.1.1.1, r.1.1.2, r.1.2, r.2. split; [vm_compute; reflexivity|].
    repeat f_equal; apply Qc_is_canon; vm_compute; reflexivity.
Qed.

(** ** Arrays *)

Lemma square_np_zeros n : square n (np_zeros n).
Proof.
  split; [apply length_replicate|].
  apply Forall_forall. intros row [-> _]%elem_of_replicate. apply length_replicate.
Qed.

Lemma cell_np_zeros n a b : (a < n)%nat → (b < n)%nat → cell (np_zeros n) a b = Some 0%Qc.
Proof.
  intros Ha Hb. unfold cell, np_zeros.
  rewrite lookup_replicate_2 by done. simpl. by apply lookup_replicate_2.
Qed.

Lemma square_mat_set n m r c v : square n m → square n (mat_set m r c v).
Proof.
  intros [Hlen Hrows]. unfold mat_set. split; [by rewrite length_alter|].
  apply Forall_forall. intros row [i Hi]%list_elem_of_lookup.
  rewrite Forall_forall in Hrows.
  destruct (decide (r = i)) as [->|Hne].
  - rewrite list_lookup_alter_eq in Hi.
    destruct (m !! i) as [row'|] eqn:Hrow; simplify_eq/=.
    rewrite length_insert. apply Hrows. by eapply list_elem_of_lookup_2.
  - rewrite list_lookup_alter_ne in Hi by done.
    apply Hrows. by eapply list_elem_of_lookup_2.
Qed.

Lemma cell_mat_set n m r c v a b :
  square n m → (r < n)%nat → (c < n)%nat →
  cell (mat_set m r c v) a b =
  if decide (a = r ∧ b = c) then Some v else cell m a b.
Proof.
  intros [Hlen Hrows] Hr Hc. unfold cell, mat_set.
  destruct (decide (a = r)) as [->|Hne].
  - rewrite list_lookup_alter_eq.
    destruct (lookup_lt_is_Some_2 m r) as [row Hrow]; [lia|].
    rewrite Hrow. simpl.
    assert (length row = n) as Hl.
    { rewrite Forall_forall in Hrows. apply Hrows. by eapply list_elem_of_lookup_2. }
    destruct (decide (b = c)) as [->|Hne].
    + rewrite decide_True by done. apply list_lookup_insert_eq. lia.
    + rewrite decide_False by tauto. by apply list_lookup_insert_ne.
  - rewrite list_lookup_alter_ne by done. by rewrite decide_False by tauto.
Qed.

(** A loop whose every iteration succeeds and keeps an invariant indexed by
    the iterations done so far. *)
Lemma foldlM_prefix_invariant {A S} (P : list A → S → Prop)
    (f : S → A → result S) xs s0 :
  P [] s0 →
  (∀ pre x s, pre ++ [x] `prefix_of` xs → P pre s →
     ∃ s', f s x = Ok s' ∧ P (pre ++ [x]) s') →
  ∃ s', foldlM f s0 xs = Ok s' ∧ P xs s'.
Proof.
  revert P s0. induction xs as [|x xs IH]; intros P s0 H0 Hstep; simpl.
  - by exists s0.
  - destruct (Hstep [] x s0) as (s1 & Hs1 & HP1); [by apply prefix_cons, prefix_nil | done |].
    rewrite Hs1. simpl.
    apply (IH (λ pre, P (x :: pre))); [done|].
    intros pre y s Hpre HP. apply (Hstep (x :: pre)); [|done].
    by apply prefix_cons.
Qed.

Lemma elem_of_triangle_pairs n i j :
  (i, j) ∈ triangle_pairs n ↔ (i ≤ j < n)%nat.
Proof.
  unfold triangle_pairs. rewrite list_elem_of_bind. split.
  - intros (i' & Hj & Hi%elem_of_seq).
    apply list_elem_of_bind in Hj as (j' & Hp & Hj%elem_of_seq).
    apply list_elem_of_singleton in Hp as [= -> ->]. lia.
  - intros Hij. exists i. split; [|apply elem_of_seq; lia].
    apply list_elem_of_bind. exists j. split; [by apply list_elem_of_singleton|].
    apply elem_of_seq. lia.
Qed.

(** ** Fingerprint similarity *)

Lemma np_sum_bounds bs : 0 ≤ np_sum bs ≤ Z.of_nat (length bs).
Proof. unfold np_sum. pose proof (length_filter (λ b, b = true) bs). lia. Qed.

Lemma np_sum_xorb_self fp : np_sum (zip_with xorb fp fp) = 0.
Proof.
  unfold np_sum. induction fp as [|b fp IH]; [done|]. simpl.
  rewrite filter_cons. rewrite xorb_nilpotent.
  rewrite decide_False by done. exact IH.
Qed.

Lemma zip_with_xorb_comm fp1 fp2 : zip_with xorb fp1 fp2 = zip_with xorb fp2 fp1.
Proof.
  revert fp2. induction fp1 as [|a fp1 IH]; intros [|b fp2]; simpl; [done..|].
  by rewrite IH, xorb_comm.
Qed.

Lemma similarity_of_bounds d fp :
  (0 < length fp)%nat → 0 ≤ d ≤ Z.of_nat (length fp) →
  (0 ≤ similarity_of d fp ≤ 1)%Qc.
Proof.
  intros Hlen Hd. unfold similarity_of.
  set (L := Qc_of_Z (Z.of_nat (length fp))).
  assert (0 < L)%Qc as HL by by apply Qc_of_nat_pos.
  assert (0 < / L)%Qc as HiL by by apply Qcinv_pos.
  assert (0 ≤ Qc_of_Z d / L)%Qc as Hlo.
  { unfold Qcdiv. rewrite <- (Qcmult_0_l (/ L)).
    apply Qcmult_le_compat_r; [|by apply Qclt_le_weak].
    rewrite <- Z2Qc_inj_0. apply (proj1 (Z2Qc_inj_le 0 d)). lia. }
  assert (Qc_of_Z d / L ≤ 1)%Qc as Hhi.
  { unfold Qcdiv. rewrite <- (Qcmult_inv_r L).
    - apply Qcmult_le_compat_r; [|by apply Qclt_le_weak].
      apply (proj1 (Z2Qc_inj_le d _)). lia.
    - intros Heq. rewrite Heq in HL. by apply (irreflexivity Qclt 0%Qc). }
  split.
  - apply Qcle_minus_iff in Hhi. exact Hhi.
  - apply Qcle_minus_iff.
    replace (1 + - (1 - Qc_of_Z d / L))%Qc with (Qc_of_Z d / L)%Qc by ring. done.
Qed.

Lemma similarity_of_zero fp : similarity_of 0 fp = 1%Qc.
Proof.
  unfold similarity_of, Qcdiv. rewrite Z2Qc_inj_0, Qcmult_0_l. ring.
Qed.

Lemma similarity_of_length d fp1 fp2 :
  length fp1 = length fp2 → similarity_of d fp1 = similarity_of d fp2.
Proof. unfold similarity_of. by intros ->. Qed.

(** ** The similarity matrix *)

Lemma sorted_keys_lookup (fingerprints : gmap Qc fingerprint) i t :
  sorted_keys fingerprints !! i = Some t → is_Some (fingerprints !! t).
Proof.
  intros Hi%list_elem_of_lookup_2. unfold sorted_keys in Hi.
  rewrite merge_sort_Permutation in Hi.
  by apply elem_of_elements, elem_of_dom in Hi.
Qed.

Lemma length_sorted_keys (fingerprints : gmap Qc fingerprint) :
  length (sorted_keys fingerprints) = size fingerprints.
Proof.
  unfold sorted_keys. rewrite merge_sort_Permutation.
  rewrite <- size_dom. done.
Qed.

Section similarity_matrix.
Variable fingerprints : gmap Qc fingerprint.
Variable L : nat.
Hypothesis same_length : ∀ t fp, fingerprints !! t = Some fp → length fp = L.

Let times := sorted_keys fingerprints.
Let n := length times.

Lemma fingerprint_at_Some a :
  (a < n)%nat →
  ∃ t fp, times !! a = Some t ∧ fingerprints !! t = Some fp ∧
          fingerprint_at fingerprints a = Some fp ∧ length fp = L.
Proof.
  intros Ha. destruct (lookup_lt_is_Some_2 times a Ha) as [t Ht].
  destruct (sorted_keys_lookup _ _ _ Ht) as [fp Hfp].
  exists t, fp. split_and!; [done..| |by eapply same_length].
  unfold fingerprint_at. fold times. by rewrite Ht.
Qed.

Lemma pair_similarity_sym a b :
  (a < n)%nat → (b < n)%nat →
  pair_similarity fingerprints a b = pair_similarity fingerprints b a.
Proof.
  intros Ha Hb. unfold pair_similarity.
  destruct (fingerprint_at_Some a Ha) as (_ & fa & _ & _ & -> & Hla).
  destruct (fingerprint_at_Some b Hb) as (_ & fb & _ & _ & -> & Hlb).
  rewrite (zip_with_xorb_comm fb fa). apply similarity_of_length. congruence.
Qed.

Lemma fill_cell_Ok m i j :
  (i < n)%nat → (j < n)%nat →
  fill_cell fingerprints times m (i, j) =
  Ok (mat_set (mat_set m i j (pair_similarity fingerprints i j))
              j i (pair_similarity fingerprints i j)).
Proof.
  intros Hi Hj. unfold fill_cell, pair_similarity.
  destruct (fingerprint_at_Some i Hi) as (ti & fa & Hti & Hfa & -> & Hla).
  destruct (fingerprint_at_Some j Hj) as (tj & fb & Htj & Hfb & -> & Hlb).
  rewrite Hti. simpl. rewrite Hfa. simpl. rewrite Htj. simpl. rewrite Hfb. simpl.
  unfold np_not_equal. rewrite decide_True by congruence. done.
Qed.

Lemma compute_similarity_matrix_cells :
  ∃ M, compute_similarity_matrix fingerprints = Ok (M, times) ∧
       square n M ∧
       ∀ a b, (a < n)%nat → (b < n)%nat →
              cell M a b = Some (pair_similarity fingerprints a b).
Proof.
  unfold compute_similarity_matrix. fold times. fold n.
  destruct (foldlM_prefix_invariant
    (λ done m, square n m ∧
       ∀ a b, (a < n)%nat → (b < n)%nat →
         cell m a b =
         Some (if decide ((a, b) ∈ done ∨ (b, a) ∈ done)
               then pair_similarity fingerprints a b else 0%Qc))
    (fill_cell fingerprints times) (triangle_pairs n) (np_zeros n))
    as (M & HM & Hsq & Hcells).
  - split; [apply square_np_zeros|]. intros a b Ha Hb.
    rewrite cell_np_zeros by done. rewrite decide_False; [done|].
    intros [[]%elem_of_nil|[]%elem_of_nil].
  - intros pre [i j] m Hpre [Hsq Hcells].
    assert ((i, j) ∈ triangle_pairs n) as Hij%elem_of_triangle_pairs.
    { destruct Hpre as [k ->]. rewrite elem_of_app. left.
      rewrite elem_of_app. right. by apply list_elem_of_singleton. }
    eexists. split; [apply fill_cell_Ok; lia|].
    split; [by do 2 apply square_mat_set|].
    intros a b Ha Hb.
    rewrite (cell_mat_set n), (cell_mat_set n);
      [|done || lia || by apply square_mat_set..].
    destruct (decide (a = j ∧ b = i)) as [[-> ->]|Hji].
    { rewrite decide_True.
      - f_equal. apply pair_similarity_sym; lia.
      - right. rewrite elem_of_app. right. by apply list_elem_of_singleton. }
    destruct (decide (a = i ∧ b = j)) as [[-> ->]|Hij'].
    { rewrite decide_True; [done|].
      left. rewrite elem_of_app. right. by apply list_elem_of_singleton. }
    rewrite Hcells by done. f_equal. apply decide_ext.
    rewrite !elem_of_app, !list_elem_of_singleton.
    split; [tauto|]. intros [[?|[= -> ->]]|[?|[= -> ->]]]; tauto.
  - exists M. rewrite HM. split; [done|]. split; [done|].
    intros a b Ha Hb. rewrite Hcells by done. f_equal.
    apply decide_True. rewrite !elem_of_triangle_pairs. lia.
Qed.
End similarity_matrix.

(** C7: for fingerprints of one non-zero length, [compute_similarity_matrix]
    returns an [n] by [n] matrix over the sorted timestamps that is
    symmetric, has every cell between 0 and 1, has 1 in every diagonal cell,
    and has 1 in every cell of two samples with identical fingerprints. *)
Theorem similarity_matrix_symmetric_bounded
    (fingerprints : gmap Qc fingerprint) (L : nat) :
  (0 < L)%nat →
  (∀ t fp, fingerprints !! t = Some fp → length fp = L) →
  let times := sorted_keys fingerprints in
  let n := length times in
  ∃ M, compute_similarity_matrix fingerprints = Ok (M, times) ∧
       square n M ∧
       (∀ a b, (a < n)%nat → (b < n)%nat →
          ∃ s, cell M a b = Some s ∧ cell M b a = Some s ∧ (0 ≤ s ≤ 1)%Qc) ∧
       (∀ a, (a < n)%nat → cell M a a = Some 1%Qc) ∧
       (∀ a b fp, fingerprint_at fingerprints a = Some fp →
                  fingerprint_at fingerprints b = Some fp →
                  cell M a b = Some 1%Qc).
Proof.
  intros HL Hsame times n.
  destruct (compute_similarity_matrix_cells fingerprints L Hsame)
    as (M & HM & Hsq & Hcells).
  fold times in HM. fold times n in Hsq, Hcells.
  assert (∀ a b fp, fingerprint_at fingerprints a = Some fp →
                    fingerprint_at fingerprints b = Some fp →
                    cell M a b = Some 1%Qc) as Hsame_fp.
  { intros a b fp Ha Hb.
    assert (a < n)%nat as Han.
    { apply bind_Some in Ha as (t & Ht%lookup_lt_Some & _). done. }
    assert (b < n)%nat as Hbn.
    { apply bind_Some in Hb as (t & Ht%lookup_lt_Some & _). done. }
    rewrite Hcells by done. unfold pair_similarity. rewrite Ha, Hb.
    by rewrite np_sum_xorb_self, similarity_of_zero. }
  exists M. split_and!; [done..| | |exact Hsame_fp].
  - intros a b Ha Hb. exists (pair_similarity fingerprints a b).
    split; [by apply Hcells|]. split.
    + rewrite Hcells by done. f_equal. by apply (pair_similarity_sym _ L).
    + unfold pair_similarity.
      destruct (fingerprint_at_Some fingerprints L Hsame a Ha) as (_ & fa & _ & _ & -> & Hla).
      destruct (fingerprint_at_Some fingerprints L Hsame b Hb) as (_ & fb & _ & _ & -> & Hlb).
      apply similarity_of_bounds; [lia|].
      pose proof (np_sum_bounds (zip_with xorb fa fb)) as Hb'.
      rewrite length_zip_with in Hb'. lia.
  - intros a Ha.
    destruct (fingerprint_at_Some fingerprints L Hsame a Ha) as (_ & fa & _ & _ & Hfa & _).
    by apply (Hsame_fp a a fa).
Qed.

Lemma similarity_matrix_symmetric_bounded_witness :
  let fingerprints := value_or ∅ (video_fingerprints distinct_video) in
  ∃ M, compute_similarity_matrix fingerprints = Ok (M, sorted_keys fingerprints) ∧
       cell M 1 1 = Some 1%Qc ∧
       ∃ s, cell M 0 2 = Some s ∧ cell M 2 0 = Some s ∧ (0 ≤ s ≤ 1)%Qc.
Proof.
  intros fingerprints.
  destruct (similarity_matrix_symmetric_bounded fingerprints 4)
    as (M & HM & _ & Hcells & Hdiag & _).
  - lia.
  - apply (bool_decide_unpack
             (map_Forall (λ _ (fp : fingerprint), length fp = 4%nat) fingerprints)).
    vm_compute. exact I.
  - exists M. split; [exact HM|]. split.
    + apply Hdiag. vm_compute. lia.
    + apply Hcells; vm_compute; lia.
Defined.

(** ** Degenerate timelines *)

Lemma py_int_nonneg (x : Qc) : (0 < x)%Qc → 0 ≤ py_int x.
Proof.
  intros Hx. unfold py_int. apply Z.quot_pos; [|done].
  unfold Qclt, Qlt in Hx. simpl in Hx. lia.
Qed.

Lemma find_intro_candidates_short self M times :
  (0 < min_intro_length self)%Qc →
  (length times ≤ 1)%nat → square (length times) M →
  find_intro_candidates self M times = Ok [].
Proof.
  intros Hmin Hlen Hsq. pose proof (py_int_nonneg _ Hmin) as Hint.
  unfold find_intro_candidates. rewrite collect_candidates_nil; [done|].
  intros i j Hin. pose proof Hin as [Hi Hj]%elem_of_index_pairs.
  destruct (scan_pair_total self M times Hsq i j) as [cs Hcs]; [lia..|].
  rewrite Hcs. f_equal.
  destruct (scan_pair_Ok _ _ _ _ _ _ Hin Hcs)
    as [->|(e & c & -> & (w & ti & te & _ & _ & _ & He & Hti & Hte & ->) & Hdur & _)];
    [done|].
  exfalso. simpl in Hdur.
  assert (e = 0) as ->.
  { apply extend_match_range in He as [->|He%elem_of_py_range]; lia. }
  replace (i + 0) with i in Hte by lia.
  assert (te = ti) as -> by congruence.
  replace (ti - ti)%Qc with 0%Qc in Hdur by ring.
  by apply Qcle_not_lt in Hdur.
Qed.

Lemma same_length_of_short (fingerprints : gmap Qc fingerprint) :
  (size fingerprints ≤ 1)%nat →
  ∃ L, ∀ t fp, fingerprints !! t = Some fp → length fp = L.
Proof.
  intros Hsize.
  exists (length (default [] (fingerprint_at fingerprints 0))).
  intros t fp Hfp.
  assert (t ∈ sorted_keys fingerprints) as [i Hi]%list_elem_of_lookup.
  { unfold sorted_keys. rewrite merge_sort_Permutation.
    apply elem_of_elements, elem_of_dom. by exists fp. }
  pose proof (lookup_lt_Some _ _ _ Hi) as Hlt.
  rewrite length_sorted_keys in Hlt.
  assert (i = 0%nat) as -> by lia.
  unfold fingerprint_at. rewrite Hi. simpl. by rewrite Hfp.
Qed.

(** C9, as the code has it: with [min_intro_length > 0], a timeline of at
    most one sample gives an empty candidate list, and [detect_intro] on a
    video with at most one usable sample returns [{found: False}] without
    raising. *)
Theorem short_timeline_not_found self :
  (0 < min_intro_length self)%Qc →
  (∀ M times,
     (length times ≤ 1)%nat → square (length times) M →
     find_intro_candidates self M times = Ok []) ∧
  (∀ video fingerprints h0,
     video_fps video ≠ 0%Qc →
     video_fingerprints video = Ok fingerprints →
     (size fingerprints ≤ 1)%nat →
     detect_intro self video h0 = (Released, Ok NotFound)).
Proof.
  intros Hmin. split.
  - intros M times. by apply find_intro_candidates_short.
  - intros video fps h0 Hfps Hfp Hsize.
    destruct (same_length_of_short fps Hsize) as [L HL].
    destruct (compute_similarity_matrix_cells fps L HL) as (M & HM & Hsq & _).
    apply detect_intro_Ok. split; [done|]. exists []. split; [|done].
    apply detection_pipeline_Ok. split; [done|].
    exists fps, M, (sorted_keys fps). split_and!; [done..|].
    apply find_intro_candidates_short; [done| |done].
    by rewrite length_sorted_keys.
Qed.

Lemma short_timeline_not_found_witness :
  find_intro_candidates default_detector [[1%Qc]] [Qc_of_Z 0] = Ok [] ∧
  detect_intro default_detector (still_video 1) Unopened = (Released, Ok NotFound).
Proof.
  destruct (short_timeline_not_found default_detector) as [Hfind Hdetect].
  - vm_compute. reflexivity.
  - split.
    + apply Hfind; [simpl; lia|]. split; [reflexivity|]. repeat constructor.
    + apply (Hdetect (still_video 1)
               (value_or ∅ (video_fingerprints (still_video 1)))).
      * vm_compute. discriminate.
      * vm_compute. reflexivity.
      * vm_compute. lia.
Defined.

(** C9 needs [min_intro_length > 0]: with [min_intro_length = 0] the single sample is
    paired with itself and a candidate of duration 0 is returned, so
    [detect_intro] reports an intro on a one-sample video. *)
Lemma short_timeline_counterexample :
  let self := detector_with_min 0%Qc in
  let fingerprints := value_or ∅ (video_fingerprints (still_video 1)) in
  let Mt := value_or ([], []) (compute_similarity_matrix fingerprints) in
  size fingerprints = 1%nat ∧
  compute_similarity_matrix fingerprints = Ok Mt ∧
  length Mt.2 = 1%nat ∧
  find_intro_candidates self Mt.1 Mt.2 ≠ Ok [] ∧
  detect_intro self (still_video 1) Unopened ≠ (Released, Ok NotFound) ∧
  ∃ s e d confidence,
    detect_intro self (still_video 1) Unopened
      = (Released, Ok (Found s e d confidence)) ∧
    (s, e, d, confidence) = (Qc_of_Z 0, Qc_of_Z 0, Qc_of_Z 0, Qc_of_Z 1).
Proof.
  intros self fingerprints Mt. split_and!.
  - vm_compute. reflexivity.
  - vm_compute. reflexivity.
  - vm_compute. reflexivity.
  - vm_compute. discriminate.
  - vm_compute. discriminate.
  - pose (r := match value_or NotFound (detect_intro self (still_video 1) Unopened).2 with
               | Found s e d c => (s, e, d, c)
               | NotFound => (0, 0, 0, 0)%Qc
               end).
    exists r.1.1.1, r.1.1.2, r.1.2, r.2. split; [vm_compute; reflexivity|].
    repeat f_equal; apply Qc_is_canon; vm_compute; reflexivity.
Qed.

(** ** Batch drivers *)

Lemma run_detection_run self filename video w :
  run_detection self filename video w =
  ({| captures := <[filename := (detect_intro self video Unopened).1]> (captures w);
      output_file := output_file w |},
   (detect_intro self video Unopened).2).
Proof. unfold run_detection. by destruct (detect_intro self video Unopened). Qed.

(** The loop of [main] never raises, keeps the entries it has, and gains an
    entry for every file whose detection returns. *)
Lemma main_loop_never_raises detector video_files results w :
  ∃ w' results',
    main_loop detector video_files results w = (w', Ok results') ∧
    output_file w' = output_file w ∧
    (∀ name, is_Some (results !! name) → is_Some (results' !! name)) ∧
    (∀ name video r, (name, video) ∈ video_files →
       (detect_intro detector video Unopened).2 = Ok r →
       is_Some (results' !! name)).
Proof.
  revert results w. induction video_files as [|[name video] rest IH]; intros results w.
  - exists w, results. split_and!; [done..|]. intros ? ? ? []%elem_of_nil.
  - cbn [main_loop]. unfold mbind at 1, prog_bind, try_except.
    unfold mbind at 1, prog_bind. rewrite run_detection_run.
    destruct (detect_intro detector video Unopened) as [h [r|e]] eqn:Hdet; cbn.
    + destruct (IH (<[name:=r]> results)
                  {| captures := <[name:=h]> (captures w); output_file := output_file w |})
        as (w' & results' & -> & Hout & Hkeep & Hnew).
      exists w', results'. split_and!; [done..| |].
      * intros k Hk. apply Hkeep. rewrite lookup_insert_is_Some. 
        destruct (decide (name = k)); auto.
      * intros k v r' [[= -> ->]|Hin]%elem_of_cons Hr'.
        -- apply Hkeep. rewrite lookup_insert_eq. by eexists.
        -- by eapply Hnew.
    + destruct (IH results
                  {| captures := <[name:=h]> (captures w); output_file := output_file w |})
        as (w' & results' & -> & Hout & Hkeep & Hnew).
      exists w', results'. split_and!; [done..|].
      intros k v r' [[= -> ->]|Hin]%elem_of_cons Hr'.
      * rewrite Hdet in Hr'. done.
      * by eapply Hnew.
Qed.

Lemma batch_loop_output self listing results w :
  output_file (batch_loop self listing results w).1 = output_file w.
Proof.
  revert results w. induction listing as [|[name video] rest IH]; intros results w.
  - done.
  - cbn [batch_loop]. destruct (supported name); [|apply IH].
    unfold mbind, prog_bind. rewrite run_detection_run.
    destruct (detect_intro self video Unopened) as [h [r|e]]; cbn; [|done].
    by rewrite IH.
Qed.

(** One raising detection ends the loop of [batch_detect_intros]: the
    exception leaves the function, the files after it are never opened and
    nothing is written. *)
Lemma batch_detect_intros_raises self pre name video post e w :
  Forall (λ f, supported f.1 = true →
               ∃ r, (detect_intro self f.2 Unopened).2 = Ok r) pre →
  supported name = true →
  (detect_intro self video Unopened).2 = Raise e →
  ∃ w', batch_detect_intros self (pre ++ (name, video) :: post) w = (w', Raise e) ∧
        output_file w' = output_file w.
Proof.
  intros Hpre Hsup Hraise. unfold batch_detect_intros.
  assert (∀ results w0, ∃ w', batch_loop self (pre ++ (name, video) :: post) results w0
                               = (w', Raise e)) as Hloop.
  { induction Hpre as [|[n v] pre Hf Hpre IH]; intros results w0.
    - cbn [app batch_loop]. rewrite Hsup. unfold mbind, prog_bind.
      rewrite run_detection_run, Hraise. by eexists.
    - cbn [app batch_loop]. destruct (supported n) eqn:Hn; [|apply IH].
      destruct (Hf Hn) as [r Hr]. simpl in Hr.
      unfold mbind at 1, prog_bind. rewrite run_detection_run, Hr. apply IH. }
  destruct (Hloop ∅ w) as [w' Hw'].
  pose proof (batch_loop_output self (pre ++ (name, video) :: post) ∅ w) as Hout.
  unfold mbind at 1, prog_bind. rewrite Hw' in Hout |- *. by exists w'.
Qed.

(** C3 on the code: [batch_detect_intros] has no exception handler.  On a
    directory whose first video cannot be opened it raises ZeroDivisionError,
    never processes ["b.mp4"] and writes nothing, whereas the loop of [main]
    in [run_detector.py], which wraps each detection in [try ... except],
    records ["b.mp4"] and writes its results. *)
Theorem batch_detect_intros_aborts_on_failure :
  let batch := batch_detect_intros default_detector failing_directory empty_world in
  let script := main default_detector failing_directory empty_world in
  (batch.2 = Raise ZeroDivisionError ∧
   output_file batch.1 = None ∧
   captures batch.1 !! "b.mp4" = None) ∧
  (script.2 = Ok () ∧
   ∃ results, output_file script.1 = Some results ∧
              results !! "a.mp4" = None ∧
              is_Some (results !! "b.mp4") ∧
              captures script.1 !! "b.mp4" = Some Released).
Proof.
  intros batch script. split.
  - split_and!; vm_compute; reflexivity.
  - split; [vm_compute; reflexivity|].
    exists (default ∅ (output_file script.1)).
    split_and!; [vm_compute; reflexivity..| |vm_compute; reflexivity].
    apply (bool_decide_unpack _). vm_compute. exact I.
Qed.


(** * Further properties of the search *)

Lemma StronglySorted_lookup_lt {A} (R : relation A) (l : list A) a b x y :
  StronglySorted R l → (a < b)%nat → l !! a = Some x → l !! b = Some y → R x y.
Proof.
  intros Hl. revert a b. induction Hl as [|z l Hl IH Hall]; intros a b Hab Ha Hb.
  - by rewrite lookup_nil in Ha.
  - destruct b as [|b]; [lia|]. destruct a as [|a]; simpl in *.
    + injection Ha as <-. rewrite Forall_forall in Hall.
      apply Hall. by eapply list_elem_of_lookup_2.
    + apply (IH a b); [lia | done..].
Qed.

Lemma StronglySorted_sublist {A} (R : relation A) (l k : list A) :
  l `sublist_of` k → StronglySorted R k → StronglySorted R l.
Proof.
  induction 1 as [|x l k Hlk IH|x l k Hlk IH]; intros Hk.
  - constructor.
  - apply StronglySorted_inv in Hk as [Hk Hall]. constructor; [by apply IH|].
    rewrite Forall_forall in Hall |- *. intros y Hy. apply Hall.
    by eapply elem_of_sublist.
  - apply StronglySorted_inv in Hk as [Hk _]. by apply IH.
Qed.

Lemma filter_overlapping_sublist candidates filtered :
  ∃ kept, filter_overlapping candidates filtered = filtered ++ kept ∧
          kept `sublist_of` candidates.
Proof.
  revert filtered. induction candidates as [|c rest IH]; intros filtered; simpl.
  - exists []. by rewrite app_nil_r.
  - case_decide.
    + destruct (IH filtered) as (kept & -> & Hsub). exists kept.
      split; [done|]. by apply sublist_cons.
    + case_decide.
      * exists [c]. split; [done|]. apply sublist_skip, sublist_nil_l.
      * destruct (IH (filtered ++ [c])) as (kept & -> & Hsub). exists (c :: kept).
        split; [by rewrite <- app_assoc|]. by apply sublist_skip.
Qed.

Lemma filter_overlapping_greedy candidates filtered c :
  StronglySorted score_ge candidates →
  Forall (λ d, Forall (score_ge d) candidates) filtered →
  c ∈ candidates →
  let r := filter_overlapping candidates filtered in
  c ∈ r ∨
  (∃ d, d ∈ r ∧ overlaps c d ∧ score_ge d c) ∨
  ((5 ≤ length r)%nat ∧ Forall (λ d, score_ge d c) r).
Proof.
  revert filtered. induction candidates as [|c0 rest IH]; intros filtered Hsorted Hfil Hc.
  { by apply elem_of_nil in Hc. }
  apply StronglySorted_inv in Hsorted as [Hrest Hc0].
  assert (Forall (λ d, Forall (score_ge d) rest) filtered) as Hfil_rest.
  { eapply Forall_impl; [exact Hfil|]. intros d Hd. by apply Forall_inv_tail in Hd. }
  cbn [filter_overlapping]. cbv zeta.
  destruct (decide (Exists (overlaps c0) filtered)) as [Hov|Hov].
  - apply elem_of_cons in Hc as [->|Hc]; [|by apply IH].
    right. left. apply Exists_exists in Hov as (d & Hd & Hov).
    exists d. split_and!; [|done|].
    + destruct (filter_overlapping_prefix rest filtered) as [k ->].
      apply elem_of_app. by left.
    + rewrite Forall_forall in Hfil. specialize (Hfil d Hd).
      by apply Forall_inv in Hfil.
  - assert (Forall (λ d, Forall (score_ge d) rest) (filtered ++ [c0])) as Hfil'.
    { apply Forall_app. split; [done|]. by constructor. }
    destruct (decide (5 ≤ length (filtered ++ [c0]))%nat) as [Hfull|Hroom].
    + apply elem_of_cons in Hc as [->|Hc].
      * left. apply elem_of_app. right. by left.
      * right. right. split; [done|].
        eapply Forall_impl; [exact Hfil'|]. intros d Hd.
        rewrite Forall_forall in Hd. by apply Hd.
    + apply elem_of_cons in Hc as [->|Hc]; [|by apply IH].
      left. destruct (filter_overlapping_prefix rest (filtered ++ [c0])) as [k ->].
      rewrite !elem_of_app. left. right. by left.
Qed.

(** X1: on an [n] by [n] matrix with [int(min_intro_length) ≥ 0] no index of
    [find_intro_candidates] leaves the arrays: the search returns.  Every
    returned candidate was collected by the loops, and the returned list is
    empty only when the loops collected nothing. *)
Theorem search_returns_within_bounds self M times :
  square (length times) M → 0 ≤ py_int (min_intro_length self) →
  ∃ cs l, collect_candidates self M times = Ok cs ∧
          find_intro_candidates self M times = Ok l ∧
          l ⊆ cs ∧ (l = [] ↔ cs = []).
Proof.
  intros Hsq Hmin.
  destruct (collect_candidates_total self M times Hsq Hmin) as [cs Hcs].
  exists cs, (filter_overlapping (sort_by_score cs) []).
  split; [done|]. split; [unfold find_intro_candidates; by rewrite Hcs|].
  destruct (filter_overlapping_sublist (sort_by_score cs) []) as (kept & Hkept & Hsub).
  simpl in Hkept. rewrite Hkept. split.
  - intros c Hc. apply elem_of_sort_by_score. by eapply elem_of_sublist.
  - split.
    + intros ->. destruct (sort_by_score cs) as [|d rest] eqn:Hsort.
      * apply Permutation_nil_r. by rewrite <- Hsort, sort_by_score_Permutation.
      * exfalso. simpl in Hkept.
        destruct (decide (Exists (overlaps d) [])) as [Hex|_];
          [by apply Exists_nil in Hex|].
        simpl in Hkept. destruct (filter_overlapping_prefix rest [d]) as [k Hk].
        rewrite Hk in Hkept. done.
    + intros ->. simpl in Hsub. by apply sublist_nil_r in Hsub.
Qed.

Lemma search_returns_within_bounds_witness :
  ∃ cs l,
    collect_candidates lenient_detector two_scene_matrix (second_times 12) = Ok cs ∧
    find_intro_candidates lenient_detector two_scene_matrix (second_times 12) = Ok l ∧
    length cs = 6%nat ∧ length l = 2%nat.
Proof.
  destruct (search_returns_within_bounds lenient_detector two_scene_matrix
              (second_times 12)) as (cs & l & Hcs & Hl & _).
  - split; [reflexivity|]. vm_compute. repeat constructor.
  - vm_compute. discriminate.
  - exists cs, l. split; [exact Hcs|]. split; [exact Hl|]. split.
    + assert (cs = value_or [] (collect_candidates lenient_detector
                two_scene_matrix (second_times 12))) as ->
        by (by rewrite Hcs).
      vm_compute. reflexivity.
    + assert (l = value_or [] (find_intro_candidates lenient_detector
                two_scene_matrix (second_times 12))) as ->
        by (by rewrite Hl).
      vm_compute. reflexivity.
Defined.

(** X2: the list returned by [find_intro_candidates] is ranked: a candidate
    never has a higher score than one placed before it. *)
Theorem returned_candidates_ranked self M times l a b c d :
  find_intro_candidates self M times = Ok l →
  (a < b)%nat → l !! a = Some c → l !! b = Some d →
  (similarity_score d ≤ similarity_score c)%Qc.
Proof.
  intros (cs & _ & ->)%find_intro_candidates_Ok Hab Ha Hb.
  destruct (filter_overlapping_sublist (sort_by_score cs) []) as (kept & Hkept & Hsub).
  simpl in Hkept. rewrite Hkept in Ha, Hb.
  eapply (StronglySorted_lookup_lt score_ge kept a b c d); [|done..].
  eapply StronglySorted_sublist; [exact Hsub|].
  apply Sorted_StronglySorted; [apply score_ge_trans | apply sort_by_score_Sorted].
Qed.

Lemma returned_candidates_ranked_witness :
  let l := value_or [] (find_intro_candidates lenient_detector two_scene_matrix
                          (second_times 12)) in
  ∃ c d, l !! 0%nat = Some c ∧ l !! 1%nat = Some d ∧
         (similarity_score d ≤ similarity_score c)%Qc.
Proof.
  intros l.
  exists (default (Build_Candidate 0 0 0 0)%Qc (l !! 0%nat)),
         (default (Build_Candidate 0 0 0 0)%Qc (l !! 1%nat)).
  split; [vm_compute; reflexivity|]. split; [vm_compute; reflexivity|].
  apply (returned_candidates_ranked lenient_detector two_scene_matrix
           (second_times 12) l 0 1); [vm_compute; reflexivity | lia | ..];
    vm_compute; reflexivity.
Defined.

(** X3: the overlap filter only drops a collected candidate in favour of
    candidates that rank at least as high: a collected candidate is returned,
    or it overlaps a returned candidate whose score is not lower, or five
    candidates whose scores are not lower were returned. *)
Theorem dropped_candidates_are_dominated self M times cs l c :
  collect_candidates self M times = Ok cs →
  find_intro_candidates self M times = Ok l →
  c ∈ cs →
  c ∈ l ∨
  (∃ d, d ∈ l ∧ overlaps c d ∧ (similarity_score c ≤ similarity_score d)%Qc) ∨
  (length l = 5%nat ∧
   Forall (λ d, (similarity_score c ≤ similarity_score d)%Qc) l).
Proof.
  intros Hcs (cs' & Hcs' & ->)%find_intro_candidates_Ok Hc.
  assert (cs' = cs) as -> by congruence.
  destruct (filter_overlapping_greedy (sort_by_score cs) [] c)
    as [?|[?|[Hlen Hall]]]; [| |by apply elem_of_sort_by_score|auto..].
  - apply Sorted_StronglySorted; [apply score_ge_trans | apply sort_by_score_Sorted].
  - constructor.
  - right. right. split; [|done].
    destruct (filter_overlapping_spec (sort_by_score cs) []) as (Hle & _);
      [simpl; lia | apply pairwise_disjoint_nil | lia].
Qed.

Lemma dropped_candidates_are_dominated_witness :
  let cs := value_or [] (collect_candidates lenient_detector two_scene_matrix
                           (second_times 12)) in
  let l := value_or [] (find_intro_candidates lenient_detector two_scene_matrix
                          (second_times 12)) in
  ∃ c, cs !! 1%nat = Some c ∧
       (c ∈ l ∨
        (∃ d, d ∈ l ∧ overlaps c d ∧ (similarity_score c ≤ similarity_score d)%Qc) ∨
        (length l = 5%nat ∧
         Forall (λ d, (similarity_score c ≤ similarity_score d)%Qc) l)).
Proof.
  intros cs l. exists (default (Build_Candidate 0 0 0 0)%Qc (cs !! 1%nat)).
  split; [vm_compute; reflexivity|].
  apply (dropped_candidates_are_dominated lenient_detector two_scene_matrix
           (second_times 12) cs l).
  - vm_compute. reflexivity.
  - vm_compute. reflexivity.
  - apply (list_elem_of_lookup_2 cs 1%nat). vm_compute. reflexivity.
Defined.

(** X4: every returned candidate is consistent with the timeline: its start
    and end are timestamps of [times], its duration is their difference, and
    when [min_intro_length > 0] it starts strictly before it ends. *)
Theorem returned_candidate_consistent self M times l c :
  find_intro_candidates self M times = Ok l → c ∈ l →
  start_time c ∈ times ∧ end_time c ∈ times ∧
  duration c = (end_time c - start_time c)%Qc ∧
  ((0 < min_intro_length self)%Qc → (start_time c < end_time c)%Qc).
Proof.
  intros Hfind Hc.
  destruct (find_intro_candidates_elem _ _ _ _ _ Hfind Hc)
    as (i & j & e & (w & ti & te & _ & _ & _ & _ & Hti & Hte & ->) & Hdur & _).
  cbn in *. split_and!; [| |done|].
  - unfold py_index in Hti. repeat case_decide; try done.
    all: destruct (times !! _) eqn:E; [|done]; injection Hti as <-;
      by eapply list_elem_of_lookup_2.
  - unfold py_index in Hte. repeat case_decide; try done.
    all: destruct (times !! _) eqn:E; [|done]; injection Hte as <-;
      by eapply list_elem_of_lookup_2.
  - intros Hmin. apply Qclt_minus_iff.
    apply Qclt_le_trans with (min_intro_length self); done.
Qed.

Lemma returned_candidate_consistent_witness :
  let l := value_or [] (find_intro_candidates lenient_detector two_scene_matrix
                          (second_times 12)) in
  ∃ c, l !! 1%nat = Some c ∧
       start_time c ∈ second_times 12 ∧ end_time c ∈ second_times 12 ∧
       (start_time c < end_time c)%Qc.
Proof.
  intros l. exists (default (Build_Candidate 0 0 0 0)%Qc (l !! 1%nat)).
  split; [vm_compute; reflexivity|].
  destruct (returned_candidate_consistent lenient_detector two_scene_matrix
              (second_times 12) l
              (default (Build_Candidate 0 0 0 0)%Qc (l !! 1%nat)))
    as (Hs & He & _ & Hlt).
  - vm_compute. reflexivity.
  - apply (list_elem_of_lookup_2 l 1%nat). vm_compute. reflexivity.
  - split; [exact Hs|]. split; [exact He|]. apply Hlt. vm_compute. reflexivity.
Defined.

(** * Further properties of the similarity matrix *)

Lemma foldlM_Ok_steps {A S} (f : S → A → result S) xs s s' x :
  foldlM f s xs = Ok s' → x ∈ xs → ∃ s1 s2, f s1 x = Ok s2.
Proof.
  revert s. induction xs as [|y xs IH]; intros s Hfold Hx.
  - by apply elem_of_nil in Hx.
  - simpl in Hfold. apply bind_Ok in Hfold as (s1 & H1 & H2).
    apply elem_of_cons in Hx as [->|Hx]; [eauto | by eapply IH].
Qed.

Lemma foldlM_Raise_step {A S} (f : S → A → result S) xs s e :
  foldlM f s xs = Raise e → ∃ s1 x, x ∈ xs ∧ f s1 x = Raise e.
Proof.
  revert s. induction xs as [|y xs IH]; intros s Hfold; [done|].
  simpl in Hfold. destruct (f s y) as [s1|e'] eqn:Hy; simpl in Hfold.
  - destruct (IH _ Hfold) as (s2 & x & Hx & Hraise). exists s2, x. split; [by right|done].
  - injection Hfold as ->. exists s, y. split; [by left|done].
Qed.

Lemma np_not_equal_Ok fp1 fp2 :
  (∃ ne, np_not_equal fp1 fp2 = Ok ne) ↔ compatible_shapes fp1 fp2.
Proof.
  unfold np_not_equal, compatible_shapes. repeat case_decide; split;
    try (intros [ne [=]]); eauto; try tauto.
Qed.

Lemma np_not_equal_Raise fp1 fp2 e :
  np_not_equal fp1 fp2 = Raise e → e = ValueError ∧ ¬ compatible_shapes fp1 fp2.
Proof.
  unfold np_not_equal, compatible_shapes. repeat case_decide; try done.
  intros [= <-]. split; [done | tauto].
Qed.

Lemma compatible_shapes_sym fp1 fp2 :
  compatible_shapes fp1 fp2 → compatible_shapes fp2 fp1.
Proof. unfold compatible_shapes. intros [?|[?|?]]; auto. Qed.

Lemma elem_of_sorted_keys (fingerprints : gmap Qc fingerprint) t :
  t ∈ sorted_keys fingerprints ↔ is_Some (fingerprints !! t).
Proof.
  unfold sorted_keys. rewrite merge_sort_Permutation.
  by rewrite elem_of_elements, elem_of_dom.
Qed.

Lemma fill_cell_inv (fingerprints : gmap Qc fingerprint) m i j :
  (i < length (sorted_keys fingerprints))%nat →
  (j < length (sorted_keys fingerprints))%nat →
  ∃ ti tj fp1 fp2,
    sorted_keys fingerprints !! i = Some ti ∧
    sorted_keys fingerprints !! j = Some tj ∧
    fingerprints !! ti = Some fp1 ∧ fingerprints !! tj = Some fp2 ∧
    fill_cell fingerprints (sorted_keys fingerprints) m (i, j) =
      (ne ← np_not_equal fp1 fp2;
       Ok (mat_set (mat_set m i j (similarity_of (np_sum ne) fp1))
                   j i (similarity_of (np_sum ne) fp1))).
Proof.
  intros Hi Hj.
  destruct (lookup_lt_is_Some_2 _ _ Hi) as [ti Hti].
  destruct (lookup_lt_is_Some_2 _ _ Hj) as [tj Htj].
  destruct (sorted_keys_lookup _ _ _ Hti) as [fp1 Hfp1].
  destruct (sorted_keys_lookup _ _ _ Htj) as [fp2 Hfp2].
  exists ti, tj, fp1, fp2. split_and!; [done..|].
  unfold fill_cell. rewrite Hti. simpl. rewrite Hfp1. simpl.
  rewrite Htj. simpl. rewrite Hfp2. done.
Qed.

Lemma StronglySorted_strict (l : list Qc) :
  StronglySorted Qcle l → NoDup l → StronglySorted Qclt l.
Proof.
  induction 1 as [|x l Hl IH Hall]; intros Hnd; [constructor|].
  apply NoDup_cons in Hnd as [Hx Hnd]. constructor; [by apply IH|].
  rewrite Forall_forall in Hall |- *. intros y Hy.
  destruct (Qcle_lt_or_eq _ _ (Hall y Hy)) as [?| ->]; done.
Qed.

(** X5: whenever [compute_similarity_matrix] returns, the timestamp list is
    strictly increasing and holds exactly the keys of the mapping, and the
    matrix has one row and one column per timestamp. *)
Theorem similarity_matrix_timeline (fingerprints : gmap Qc fingerprint) M times :
  compute_similarity_matrix fingerprints = Ok (M, times) →
  StronglySorted Qclt times ∧
  (∀ t, t ∈ times ↔ is_Some (fingerprints !! t)) ∧
  length times = size fingerprints ∧
  square (length times) M.
Proof.
  unfold compute_similarity_matrix.
  intros (M' & Hfold & [= -> <-])%bind_Ok. split_and!.
  - apply StronglySorted_strict.
    + apply (StronglySorted_merge_sort Qcle).
    + unfold sorted_keys. rewrite merge_sort_Permutation. apply NoDup_elements.
  - apply elem_of_sorted_keys.
  - apply length_sorted_keys.
  - eapply (foldlM_invariant (square (length (sorted_keys fingerprints))));
      [|apply square_np_zeros|exact Hfold].
    intros m [i j] m' _ Hm. unfold fill_cell.
    intros (ti & _ & (fp1 & _ & (tj & _ & (fp2 & _ & (ne & _ & [= <-])%bind_Ok)
      %bind_Ok)%bind_Ok)%bind_Ok)%bind_Ok.
    by do 2 apply square_mat_set.
Qed.

Lemma similarity_matrix_timeline_witness :
  let fingerprints := value_or ∅ (video_fingerprints distinct_video) in
  let Mt := value_or ([], []) (compute_similarity_matrix fingerprints) in
  length Mt.2 = 3%nat ∧ StronglySorted Qclt Mt.2 ∧ square 3 Mt.1.
Proof.
  intros fingerprints Mt.
  destruct (similarity_matrix_timeline fingerprints Mt.1 Mt.2)
    as (Hsorted & _ & Hlen & Hsq).
  - vm_compute. reflexivity.
  - assert (length Mt.2 = 3%nat) as Hl by (vm_compute; reflexivity).
    split; [exact Hl|]. split; [exact Hsorted|]. rewrite <- Hl. exact Hsq.
Defined.

(** X6: [compute_similarity_matrix] returns exactly when every two
    fingerprints can be compared elementwise (equal lengths, or one of length
    one); otherwise it raises ValueError, and no other exception. *)
Theorem similarity_matrix_error_behaviour (fingerprints : gmap Qc fingerprint) :
  match compute_similarity_matrix fingerprints with
  | Ok _ =>
      ∀ t1 t2 fp1 fp2,
        fingerprints !! t1 = Some fp1 → fingerprints !! t2 = Some fp2 →
        compatible_shapes fp1 fp2
  | Raise e =>
      e = ValueError ∧
      ∃ t1 t2 fp1 fp2,
        fingerprints !! t1 = Some fp1 ∧ fingerprints !! t2 = Some fp2 ∧
        ¬ compatible_shapes fp1 fp2
  end.
Proof.
  unfold compute_similarity_matrix.
  set (times := sorted_keys fingerprints). set (n := length times).
  destruct (foldlM (fill_cell fingerprints times) (np_zeros n) (triangle_pairs n))
    as [M|e] eqn:Hfold; simpl.
  - assert (∀ a b, (a ≤ b < n)%nat → ∀ ta tb fa fb,
              times !! a = Some ta → times !! b = Some tb →
              fingerprints !! ta = Some fa → fingerprints !! tb = Some fb →
              compatible_shapes fa fb) as Hordered.
    { intros a b Hab ta tb fa fb Hta Htb Hfa Hfb.
      destruct (foldlM_Ok_steps _ _ _ _ (a, b) Hfold) as (m1 & m2 & Hstep).
      { apply elem_of_triangle_pairs. lia. }
      destruct (fill_cell_inv fingerprints m1 a b)
        as (ta' & tb' & fa' & fb' & Hta' & Htb' & Hfa' & Hfb' & Hcell);
        [fold times; fold n; lia..|].
      fold times in Hta', Htb', Hcell. simplify_eq.
      rewrite Hcell in Hstep. apply bind_Ok in Hstep as (ne & Hne & _).
      apply np_not_equal_Ok. eauto. }
    intros t1 t2 fp1 fp2 Hfp1 Hfp2.
    assert (t1 ∈ times) as [a Ha]%list_elem_of_lookup
      by (apply elem_of_sorted_keys; eauto).
    assert (t2 ∈ times) as [b Hb]%list_elem_of_lookup
      by (apply elem_of_sorted_keys; eauto).
    pose proof (lookup_lt_Some _ _ _ Ha). pose proof (lookup_lt_Some _ _ _ Hb).
    destruct (decide (a ≤ b)%nat).
    + by apply (Hordered a b ltac:(lia) t1 t2).
    + apply compatible_shapes_sym. by apply (Hordered b a ltac:(lia) t2 t1).
  - destruct (foldlM_Raise_step _ _ _ _ Hfold) as (m1 & [i j] & Hin & Hstep).
    apply elem_of_triangle_pairs in Hin.
    destruct (fill_cell_inv fingerprints m1 i j)
      as (ti & tj & fp1 & fp2 & _ & _ & Hfp1 & Hfp2 & Hcell);
      [fold times; fold n; lia..|].
    fold times in Hcell. rewrite Hcell in Hstep.
    destruct (np_not_equal fp1 fp2) as [ne|e'] eqn:Hne; [done|].
    injection Hstep as ->. apply np_not_equal_Raise in Hne as [-> Hne].
    split; [done|]. by exists ti, tj, fp1, fp2.
Qed.

Lemma similarity_matrix_error_behaviour_witness :
  compute_similarity_matrix ragged_fingerprints = Raise ValueError ∧
  ∃ t1 t2 fp1 fp2,
    ragged_fingerprints !! t1 = Some fp1 ∧ ragged_fingerprints !! t2 = Some fp2 ∧
    ¬ compatible_shapes fp1 fp2.
Proof.
  pose proof (similarity_matrix_error_behaviour ragged_fingerprints) as H.
  assert (compute_similarity_matrix ragged_fingerprints = Raise ValueError) as Hraise
    by (vm_compute; reflexivity).
  rewrite Hraise in H. split; [exact Hraise | exact (proj2 H)].
Defined.

(** * The perceptual hash *)

Lemma filter_none {A} (P : A → Prop) `{!∀ x, Decision (P x)} (l : list A) :
  Forall (λ x, ¬ P x) l → filter P l = [].
Proof.
  induction 1 as [|x l Hx Hl IH]; [done|].
  rewrite filter_cons, decide_False by done. exact IH.
Qed.

Lemma count_bits_above (m : Qc) (xs : list Qc) :
  length (filter (λ b, b = true) ((λ x, bool_decide (m < x)%Qc) <$> xs)) =
  length (filter (λ x, (m < x)%Qc) xs).
Proof.
  induction xs as [|x xs IH]; [done|].
  rewrite fmap_cons, !filter_cons. destruct (decide (m < x)%Qc) as [Hx|Hx].
  - rewrite bool_decide_eq_true_2 by done. rewrite decide_True by done.
    simpl. by rewrite IH.
  - rewrite bool_decide_eq_false_2 by done. rewrite decide_False by done. exact IH.
Qed.

Lemma count_above_sorted (s : list Qc) (k : nat) (v m : Qc) :
  StronglySorted Qcle s → s !! k = Some v → (v ≤ m)%Qc →
  (length (filter (λ x, (m < x)%Qc) s) ≤ length s - S k)%nat.
Proof.
  intros Hs Hk Hv.
  rewrite <- (take_drop (S k) s) at 1. rewrite filter_app, length_app.
  rewrite (filter_none _ (take (S k) s)).
  - simpl. etrans; [apply length_filter|]. by rewrite length_drop.
  - apply Forall_forall. intros x [i Hi]%list_elem_of_lookup.
    apply lookup_take_Some in Hi as [Hi Hlt].
    apply Qcle_not_lt. trans v; [|done].
    destruct (decide (i = k)) as [->|Hne]; [by simplify_eq|].
    apply (StronglySorted_lookup_lt Qcle s i k); [done | lia | done..].
Qed.

Lemma Qc_le_midpoint (a b : Qc) : (a ≤ b → a ≤ (a + b) / Qc_of_Z 2)%Qc.
Proof.
  intros Hab.
  assert (a = (a + a) / Qc_of_Z 2)%Qc as Ha.
  { rewrite Z2Qc_inj_2. field. done. }
  rewrite Ha at 1. unfold Qcdiv. apply Qcmult_le_compat_r.
  - by apply Qcplus_le_mono_l.
  - apply Qclt_le_weak, Qcinv_pos. by rewrite Z2Qc_inj_2.
Qed.

Lemma count_above_median (xs : list Qc) :
  (length (filter (λ x, (np_median xs < x)%Qc) xs) ≤ length xs / 2)%nat.
Proof.
  unfold np_median. set (s := merge_sort Qcle xs).
  assert (StronglySorted Qcle s) as Hs by apply (StronglySorted_merge_sort Qcle).
  assert (s ≡ₚ xs) as Hperm by apply merge_sort_Permutation.
  rewrite <- (Permutation_length Hperm).
  rewrite <- (Permutation_length (filter_Permutation _ _ _ Hperm)).
  clearbody s. clear Hperm xs.
  destruct (Nat.even (length s)) eqn:Heven.
  - apply Nat.even_spec in Heven as [h Hh]. rewrite Hh.
    replace (2 * h / 2)%nat with h by (rewrite Nat.mul_comm, Nat.div_mul; lia).
    destruct h as [|h].
    { destruct s; [done | simpl in Hh; lia]. }
    replace (S h - 1)%nat with h by lia.
    destruct (lookup_lt_is_Some_2 s h) as [v Hv]; [lia|].
    destruct (lookup_lt_is_Some_2 s (S h)) as [v' Hv']; [lia|].
    rewrite Hv, Hv'. simpl.
    etrans; [apply (count_above_sorted s h v); [done..|]|lia].
    apply Qc_le_midpoint.
    apply (StronglySorted_lookup_lt Qcle s h (S h)); [done | lia | done..].
  - assert (Nat.odd (length s) = true) as Hodd by (by rewrite <- Nat.negb_even, Heven).
    apply Nat.odd_spec in Hodd as [h Hh]. rewrite Hh.
    replace ((2 * h + 1) / 2)%nat with h.
    2:{ rewrite (Nat.mul_comm 2 h), Nat.div_add_l by lia. simpl. lia. }
    destruct (lookup_lt_is_Some_2 s h) as [v Hv]; [lia|].
    rewrite Hv. simpl.
    etrans; [apply (count_above_sorted s h v); done|lia].
Qed.

(** X7: a fingerprint never has more than half of its bits set, whatever the
    frame: at most half of the low-frequency coefficients lie strictly above
    their median. *)
Theorem hash_bits_at_most_half_set (dct : matrix) :
  2 * np_sum (hash_bits dct) ≤ Z.of_nat (length (hash_bits dct)).
Proof.
  unfold hash_bits, np_sum. rewrite count_bits_above, length_fmap.
  pose proof (count_above_median (flatten (low_frequencies dct))) as H.
  pose proof (Nat.div_mod_eq (length (flatten (low_frequencies dct))) 2) as Hdiv.
  lia.
Qed.

Lemma length_flatten_rows (c : nat) (m : matrix) :
  Forall (λ row, length row = c) m → length (flatten m) = (length m * c)%nat.
Proof.
  unfold flatten. induction 1 as [|row m Hrow Hrows IH]; [done|].
  simpl. rewrite length_app, Hrow, IH. done.
Qed.

Lemma length_hash_bits (h : nat) (dct : matrix) :
  square h dct → length (hash_bits dct) = (h `min` 8 * (h `min` 8))%nat.
Proof.
  intros [Hlen Hrows]. unfold hash_bits. rewrite length_fmap.
  rewrite (length_flatten_rows (h `min` 8)).
  - unfold low_frequencies. rewrite length_fmap, length_take. lia.
  - unfold low_frequencies. apply Forall_fmap, Forall_take.
    eapply Forall_impl; [exact Hrows|]. intros row Hrow. simpl in *.
    rewrite length_take. lia.
Qed.

(** X8: the fingerprint of a frame whose DCT has [h] rows and [h] columns
    has [min(8, h)²] bits, whatever the frame shows: 64 bits for every hash
    size of at least 8. *)
Theorem hash_bits_length (h : nat) (dct : matrix) :
  square h dct →
  length (hash_bits dct) = (h `min` 8 * (h `min` 8))%nat ∧
  ((8 ≤ h)%nat → length (hash_bits dct) = 64%nat).
Proof.
  intros Hsq. pose proof (length_hash_bits h dct Hsq) as Hbits.
  split; [done|]. intros Hh. rewrite Hbits.
  replace (h `min` 8)%nat with 8%nat by lia. done.
Qed.

Lemma hash_bits_length_witness :
  length (hash_bits ramp_dct) = 64%nat ∧ np_sum (hash_bits ramp_dct) = 32.
Proof.
  split; [|vm_compute; reflexivity].
  apply (hash_bits_length 16 ramp_dct); [|lia].
  split; [reflexivity|]. vm_compute. repeat constructor.
Defined.

(** * The sampling walks *)

Lemma sample_point_succ (k : Z) (step : Qc) :
  (Qc_of_Z k * step + step = Qc_of_Z (k + 1) * step)%Qc.
Proof. rewrite Z2Qc_inj_add, Z2Qc_inj_1. ring. Qed.

Lemma Qc_lt_ceiling (k : Z) (x : Qc) : (Qc_of_Z k < x)%Qc ↔ k < Qceiling x.
Proof.
  unfold Qclt. change (this (Qc_of_Z k)) with (inject_Z k). split.
  - intros Hk. rewrite Zlt_Qlt.
    eapply Qlt_le_trans; [exact Hk | apply Qle_ceiling].
  - intros Hk. eapply Qle_lt_trans; [|apply Qceiling_lt].
    rewrite <- Zle_Qle. lia.
Qed.

Lemma sample_point_lt (k : Z) (duration rate : Qc) :
  (0 < rate)%Qc →
  (Qc_of_Z k * (1 / rate) < duration)%Qc ↔ (Qc_of_Z k < duration * rate)%Qc.
Proof.
  intros Hrate.
  assert (rate ≠ 0%Qc) as Hne.
  { intros ->. by apply (irreflexivity Qclt 0%Qc). }
  split; intros Hlt.
  - apply (Qcmult_lt_compat_r _ _ rate) in Hlt; [|done].
    replace (Qc_of_Z k * (1 / rate) * rate)%Qc with (Qc_of_Z k) in Hlt; [done|].
    field. done.
  - apply (Qcmult_lt_compat_r _ _ (/ rate)) in Hlt; [|by apply Qcinv_pos].
    replace (duration * rate * / rate)%Qc with duration in Hlt by (field; done).
    replace (Qc_of_Z k * (1 / rate))%Qc with (Qc_of_Z k * / rate)%Qc by (field; done).
    done.
Qed.

(** For a positive rate, the sample points below [duration] are the first
    [sample_count duration rate] ones. *)
Lemma sample_count_spec (duration rate : Qc) (k : Z) :
  (0 < rate)%Qc → 0 ≤ k →
  (Qc_of_Z k * (1 / rate) < duration)%Qc ↔ k < Z.of_nat (sample_count duration rate).
Proof.
  intros Hrate Hk. rewrite sample_point_lt by done. rewrite Qc_lt_ceiling.
  unfold sample_count. lia.
Qed.


Lemma sampling_loop_points {St} (duration rate : Qc) (body : St → Qc → St) :
  rate ≠ 0%Qc →
  ∀ (count : nat) (a : Z) (fuel : nat) (s : St),
    (count ≤ fuel)%nat →
    (∀ k, a ≤ k < a + Z.of_nat count → (Qc_of_Z k * (1 / rate) < duration)%Qc) →
    ¬ (Qc_of_Z (a + Z.of_nat count) * (1 / rate) < duration)%Qc →
    sampling_loop duration rate body fuel (Qc_of_Z a * (1 / rate))%Qc s =
    Some (Ok (foldl body s
                ((λ k, Qc_of_Z k * (1 / rate))%Qc <$> seqZ a (Z.of_nat count)))).
Proof.
  intros Hrate. induction count as [|count IH]; intros a fuel s Hfuel Hbelow Hstop.
  - replace (a + Z.of_nat 0) with a in Hstop by lia.
    rewrite seqZ_nil by done. destruct fuel; simpl; by rewrite decide_False.
  - destruct fuel as [|fuel]; [lia|]. simpl.
    rewrite decide_True by (apply Hbelow; lia).
    rewrite decide_False by done. rewrite sample_point_succ.
    rewrite IH; [|lia| |].
    + rewrite (seqZ_cons a) by lia.
      replace (Z.succ a) with (a + 1) by lia.
      replace (Z.pred (Z.of_nat (S count))) with (Z.of_nat count) by lia.
      by rewrite fmap_cons.
    + intros k Hk. apply Hbelow. lia.
    + replace (a + 1 + Z.of_nat count) with (a + Z.of_nat (S count)) by lia. done.
Qed.

(** With a positive rate the loop ends after [sample_count] iterations and
    has run its body on each sample point in turn. *)
Lemma sampling_loop_run {St} (duration rate : Qc) (body : St → Qc → St) fuel (s : St) :
  (0 < rate)%Qc → (sample_count duration rate ≤ fuel)%nat →
  sampling_loop duration rate body fuel 0%Qc s =
  Some (Ok (foldl body s (sample_points rate (sample_count duration rate)))).
Proof.
  intros Hrate Hfuel.
  assert (rate ≠ 0%Qc) as Hne.
  { intros ->. by apply (irreflexivity Qclt 0%Qc). }
  replace 0%Qc with (Qc_of_Z 0 * (1 / rate))%Qc at 1
    by (rewrite Z2Qc_inj_0; apply Qcmult_0_l).
  apply sampling_loop_points; [done..| |].
  - intros k Hk. apply sample_count_spec; [done|lia..].
  - intros Hlt. apply sample_count_spec in Hlt; [lia|done|lia].
Qed.

Lemma sampling_loop_invariant {St} (P : St → Prop) (duration rate : Qc)
    (body : St → Qc → St) fuel current_time (s s' : St) :
  (∀ s t, P s → P (body s t)) → P s →
  sampling_loop duration rate body fuel current_time s = Some (Ok s') → P s'.
Proof.
  intros Hbody. revert current_time s.
  induction fuel as [|fuel IH]; intros current_time s Hs; simpl.
  - case_decide; [done|]. by intros [= <-].
  - case_decide; [|by intros [= <-]]. case_decide; [done|].
    apply IH. by apply Hbody.
Qed.

Lemma sampling_loop_no_raise {St} (duration rate : Qc) (body : St → Qc → St)
    fuel current_time (s : St) e :
  rate ≠ 0%Qc →
  sampling_loop duration rate body fuel current_time s ≠ Some (Raise e).
Proof.
  intros Hrate. revert current_time s.
  induction fuel as [|fuel IH]; intros current_time s; simpl.
  - by case_decide.
  - case_decide; [|done]. rewrite decide_False by done. apply IH.
Qed.








Lemma Qc_inv_neg (x : Qc) : (x < 0 → / x < 0)%Qc.
Proof.
  intros Hx.
  assert (x ≠ 0%Qc) as Hne.
  { intros ->. by apply (irreflexivity Qclt 0%Qc). }
  assert (0 < - x)%Qc as Hpos.
  { apply Qclt_minus_iff in Hx. by rewrite Qcplus_0_l in Hx. }
  assert ((- x)%Qc ≠ 0%Qc) as Hne'.
  { intros Heq. rewrite Heq in Hpos. by apply (irreflexivity Qclt 0%Qc). }
  apply Qcinv_pos in Hpos.
  replace (/ - x)%Qc with (- / x)%Qc in Hpos by (field; done).
  apply Qclt_minus_iff. by rewrite Qcplus_0_l.
Qed.

Lemma sampling_loop_diverges {St} (duration rate : Qc) (body : St → Qc → St)
    fuel current_time (s : St) :
  (rate < 0)%Qc → (current_time ≤ 0)%Qc → (0 < duration)%Qc →
  sampling_loop duration rate body fuel current_time s = None.
Proof.
  intros Hrate Hcur Hdur.
  assert (rate ≠ 0%Qc) as Hne.
  { intros ->. by apply (irreflexivity Qclt 0%Qc). }
  revert current_time s Hcur. induction fuel as [|fuel IH]; intros current_time s Hcur;
    simpl; rewrite decide_True by (by eapply Qcle_lt_trans); [done|].
  rewrite decide_False by done. apply IH.
  apply Qclt_le_weak, Qcplus_nonpos_neg; [done|].
  unfold Qcdiv. rewrite Qcmult_1_l. by apply Qc_inv_neg.
Qed.

(** X11: the edges of [extract_fingerprints].  A video of duration 0 or less
    gives the empty mapping without reading a frame, whatever the sampling
    rate; with a positive duration, a sampling rate of 0 raises
    ZeroDivisionError in the first iteration, and a negative sampling rate
    keeps the loop running for ever. *)
Theorem extract_fingerprints_edges `{OpenCV} (self : FingerprintExtractor) :
  let duration := vp_duration (video_processor self) in
  let rate := sampling_rate self in
  ((duration ≤ 0)%Qc → ∀ fuel, extract_fingerprints self fuel = Some (Ok ∅)) ∧
  ((0 < duration)%Qc → rate = 0%Qc →
     ∀ fuel, extract_fingerprints self (S fuel) = Some (Raise ZeroDivisionError)) ∧
  ((0 < duration)%Qc → (rate < 0)%Qc →
     ∀ fuel, extract_fingerprints self fuel = None).
Proof.
  intros duration rate. unfold extract_fingerprints. fold duration rate. split_and!.
  - intros Hdur fuel. destruct fuel; simpl;
      by rewrite decide_False by by apply Qcle_not_lt.
  - intros Hdur Hrate fuel. simpl. rewrite decide_True by done.
    by rewrite decide_True by done.
  - intros Hdur Hrate fuel. by apply sampling_loop_diverges.
Qed.

Lemma extract_fingerprints_edges_witness :
  @extract_fingerprints toy_cv
    {| video_processor := empty_processor; sampling_rate := 0%Qc |} 0 = Some (Ok ∅) ∧
  @extract_fingerprints toy_cv (toy_extractor_with_rate 0%Qc) 1
    = Some (Raise ZeroDivisionError) ∧
  @extract_fingerprints toy_cv (toy_extractor_with_rate (- 1)%Qc) 1000 = None.
Proof.
  split_and!.
  - apply (@extract_fingerprints_edges toy_cv
             {| video_processor := empty_processor; sampling_rate := 0%Qc |}).
    vm_compute. discriminate.
  - apply (@extract_fingerprints_edges toy_cv (toy_extractor_with_rate 0%Qc));
      vm_compute; reflexivity.
  - apply (@extract_fingerprints_edges toy_cv (toy_extractor_with_rate (- 1)%Qc));
      vm_compute; reflexivity.
Defined.

(** ** Scene transitions *)

Lemma transition_walk_invariant `{OpenCV} (self : FingerprintExtractor)
    (threshold : Qc) (points : list Qc) :
  let s := foldl (transition_step self threshold) ([], None) points in
  s.1 `sublist_of` drop 1 (decoded_points self points) ∧
  (s.2 = None ↔ decoded_points self points = []).
Proof.
  induction points as [|p points IH] using rev_ind; [done|].
  rewrite foldl_app. cbn [foldl]. cbv zeta in IH |- *.
  destruct (foldl (transition_step self threshold) ([], None) points)
    as [transitions prev] eqn:Hfold.
  destruct IH as [Hsub Hprev]. simpl in Hsub, Hprev.
  unfold decoded_points in *. rewrite filter_app.
  unfold transition_step at 1 2.
  destruct (extract_frame (video_processor self) p) as [frame|] eqn:Hp.
  - rewrite (filter_cons_True _ p []) by by rewrite Hp.
    rewrite filter_nil. simpl. split.
    + destruct prev as [prev|].
      * assert (filter (λ t, is_Some (extract_frame (video_processor self) t)) points ≠ [])
          as Hne by (intros Hnil; apply Hprev in Hnil; done).
        destruct (filter _ points) as [|d ds] eqn:Hd; [done|]. simpl in *.
        case_decide; [by apply sublist_app | by apply sublist_inserts_r].
      * assert (filter (λ t, is_Some (extract_frame (video_processor self) t)) points = [])
          as Hnil by by apply Hprev.
        rewrite Hnil in Hsub |- *. done.
    + split; [done|]. intros Hnil. by apply app_nil in Hnil as [_ ?].
  - rewrite (filter_cons_False _ p []) by (rewrite Hp; by intros [? ?]).
    rewrite filter_nil, app_nil_r. done.
Qed.

Lemma sample_points_sorted (rate : Qc) (count : nat) :
  (0 < rate)%Qc → StronglySorted Qclt (sample_points rate count).
Proof.
  intros Hrate. unfold sample_points. generalize 0.
  induction count as [|n IH]; intros a.
  - rewrite seqZ_nil by done. constructor.
  - rewrite seqZ_cons by lia.
    replace (Z.pred (Z.of_nat (S n))) with (Z.of_nat n) by lia.
    rewrite fmap_cons. constructor; [apply IH|].
    apply Forall_fmap, Forall_seqZ. intros k Hk. simpl.
    apply Qcmult_lt_compat_r.
    + unfold Qcdiv. rewrite Qcmult_1_l. by apply Qcinv_pos.
    + apply (proj1 (Z2Qc_inj_lt a k)). lia.
Qed.

(** X12: with a positive sampling rate [extract_scene_transitions] ends and
    returns, in increasing order, some of the sample times at which a frame
    could be read, never the first of them: a transition is only reported
    against an earlier frame. *)
Theorem scene_transitions_among_samples `{OpenCV} (self : FingerprintExtractor)
    (threshold : Qc) fuel :
  let duration := vp_duration (video_processor self) in
  let rate := sampling_rate self in
  (0 < rate)%Qc → (sample_count duration rate ≤ fuel)%nat →
  ∃ transitions,
    extract_scene_transitions self threshold fuel = Some (Ok transitions) ∧
    transitions `sublist_of`
      drop 1 (decoded_points self (sample_points rate (sample_count duration rate))) ∧
    StronglySorted Qclt transitions.
Proof.
  intros duration rate Hrate Hfuel. unfold extract_scene_transitions.
  rewrite sampling_loop_run by done. fold duration rate.
  pose proof (transition_walk_invariant self threshold
                (sample_points rate (sample_count duration rate))) as [Hsub _].
  destruct (foldl _ _ _) as [transitions prev]. simpl in Hsub.
  exists transitions. split; [done|]. split; [done|].
  eapply StronglySorted_sublist; [exact Hsub|].
  eapply StronglySorted_sublist; [apply sublist_drop|].
  eapply StronglySorted_sublist; [apply sublist_filter|].
  by apply sample_points_sorted.
Qed.

Lemma scene_transitions_among_samples_witness :
  ∃ transitions,
    @extract_scene_transitions toy_cv toy_extractor (Q2Qc (1 # 2)) 2
      = Some (Ok transitions) ∧
    length transitions = 1%nat ∧ StronglySorted Qclt transitions.
Proof.
  destruct (@scene_transitions_among_samples toy_cv toy_extractor (Q2Qc (1 # 2)) 2)
    as (transitions & Hrun & _ & Hsorted).
  - vm_compute. reflexivity.
  - vm_compute. lia.
  - exists transitions. split; [exact Hrun|]. split; [|exact Hsorted].
    assert (transitions = value_or [] (default (Ok [])
              (@extract_scene_transitions toy_cv toy_extractor (Q2Qc (1 # 2)) 2)))
      as -> by (by rewrite Hrun).
    vm_compute. reflexivity.
Defined.

(** ** detect_intro on a capture *)

Lemma toy_cv_dct_square (frame : @Frame toy_cv) : square 16 (@frame_dct toy_cv 16 frame).
Proof.
  split; [reflexivity|]. cbn. repeat (constructor; [reflexivity|]). constructor.
Qed.

(** X13: end to end.  When OpenCV resizes every frame to 16 by 16 and the
    capture reports a non-zero frame rate, [detect_intro] with
    [int(min_intro_length) ≥ 0] on the fingerprints that the walk at 0.5
    samples per second extracts never raises, and ends with the capture
    released: all fingerprints have 64 bits, so neither the matrix nor the
    search can fail. *)
Theorem detect_intro_on_capture `{OpenCV} (self : IntroDetector)
    (cap : VideoCapture) (vp : VideoProcessor) fuel outcome h0 :
  (∀ frame, square 16 (frame_dct 16 frame)) →
  new_VideoProcessor cap = Ok vp →
  extract_fingerprints {| video_processor := vp; sampling_rate := Q2Qc (1 # 2) |} fuel
    = Some outcome →
  0 ≤ py_int (min_intro_length self) →
  ∃ r, detect_intro self
         {| video_opens := cap_opened cap; video_fps := cap_fps cap;
            video_fingerprints := outcome |} h0
       = (Released, Ok r).
Proof.
  intros Hdct Hvp Hwalk Hmin.
  assert (cap_fps cap ≠ 0%Qc) as Hfps.
  { unfold new_VideoProcessor in Hvp. by case_decide. }
  unfold extract_fingerprints in Hwalk. cbn in Hwalk.
  destruct outcome as [fingerprints|e].
  2:{ exfalso. eapply sampling_loop_no_raise; [|exact Hwalk]. done. }
  assert (∀ t fp, fingerprints !! t = Some fp → length fp = 64%nat) as Hlen.
  { eapply (sampling_loop_invariant
              (λ m : gmap Qc fingerprint, ∀ t fp, m !! t = Some fp → length fp = 64%nat));
      [| |exact Hwalk].
    - intros m t Hm t' fp. unfold fingerprint_step.
      destruct (extract_frame _ t) as [frame|]; [|apply Hm].
      rewrite lookup_insert. case_decide; [|apply Hm].
      intros [= <-]. unfold get_frame_fingerprint.
      by rewrite (length_hash_bits 16) by apply Hdct.
    - intros t fp. by rewrite lookup_empty. }
  destruct (compute_similarity_matrix_cells fingerprints 64 Hlen) as (M & HM & Hsq & _).
  destruct (find_intro_candidates_total self M (sorted_keys fingerprints) Hsq Hmin)
    as [l Hl].
  exists (best_of l). apply detect_intro_Ok. split; [done|].
  exists l. split; [|done]. apply detection_pipeline_Ok. split; [done|].
  by exists fingerprints, M, (sorted_keys fingerprints).
Qed.

Lemma detect_intro_on_capture_witness :
  ∃ outcome r,
    @extract_fingerprints toy_cv toy_extractor 2 = Some outcome ∧
    detect_intro default_detector
      {| video_opens := true; video_fps := Qc_of_Z 25;
         video_fingerprints := outcome |} Unopened
    = (Released, Ok r).
Proof.
  pose (outcome := default (Raise MediaError) (@extract_fingerprints toy_cv toy_extractor 2)).
  destruct (@detect_intro_on_capture toy_cv default_detector toy_capture toy_processor
              2 outcome Unopened) as [r Hr].
  - apply toy_cv_dct_square.
  - vm_compute. reflexivity.
  - vm_compute. reflexivity.
  - vm_compute. discriminate.
  - exists outcome, r. split; [vm_compute; reflexivity | exact Hr].
Defined.

(** * Further properties of the batch drivers *)

Lemma main_loop_results detector video_files results w :
  NoDup video_files.*1 →
  (∀ name, name ∈ video_files.*1 → results !! name = None) →
  ∃ w' results',
    main_loop detector video_files results w = (w', Ok results') ∧
    output_file w' = output_file w ∧
    (∀ name r, results' !! name = Some r ↔
       results !! name = Some r ∨
       ∃ video, (name, video) ∈ video_files ∧
                (detect_intro detector video Unopened).2 = Ok r) ∧
    (∀ name video, (name, video) ∈ video_files →
       captures w' !! name = Some (detect_intro detector video Unopened).1) ∧
    (∀ name, name ∉ video_files.*1 → captures w' !! name = captures w !! name).
Proof.
  revert results w.
  induction video_files as [|[n v] rest IH]; intros results w Hnd Hfresh.
  { exists w, results. split_and!; [done..| | |done].
    - intros name r. split; [by left|]. intros [?|(? & []%elem_of_nil & _)]; done.
    - intros ? ? []%elem_of_nil. }
  rewrite fmap_cons in Hnd. apply NoDup_cons in Hnd as [Hn Hnd]. simpl in Hn.
  cbn [main_loop]. unfold mbind at 1, prog_bind, try_except.
  unfold mbind at 1, prog_bind. rewrite run_detection_run.
  destruct (detect_intro detector v Unopened) as [h [r0|e]] eqn:Hdet; cbn.
  - destruct (IH (<[n:=r0]> results)
                {| captures := <[n:=h]> (captures w); output_file := output_file w |} Hnd)
      as (w' & results' & -> & Hout & Hres & Hcap & Hother).
    { intros name Hname. rewrite lookup_insert_ne by (intros ->; done).
      apply Hfresh. rewrite fmap_cons. by right. }
    exists w', results'. split_and!; [done..| | |].
    + intros name r. rewrite Hres, lookup_insert_Some. split.
      * intros [[[-> ->]|[Hne Hr]]|(video & Hin & Hok)].
        -- right. exists v. split; [by left|]. by rewrite Hdet.
        -- by left.
        -- right. exists video. split; [by right|done].
      * intros [Hr|(video & [[= -> ->]|Hin]%elem_of_cons & Hok)].
        -- left. right. split; [|done]. intros ->.
           rewrite Hfresh in Hr; [done|]. rewrite fmap_cons. by left.
        -- left. left. rewrite Hdet in Hok. simpl in Hok. by injection Hok as ->.
        -- right. by exists video.
    + intros name video [[= -> ->]|Hin]%elem_of_cons.
      * rewrite Hother by done. simpl. rewrite lookup_insert_eq. by rewrite Hdet.
      * by apply Hcap.
    + intros name Hname. rewrite ?fmap_cons in Hname.
      apply not_elem_of_cons in Hname as [Hne Hname]. simpl in Hne.
      rewrite Hother by done. simpl.
      by rewrite lookup_insert_ne.
  - destruct (IH results
                {| captures := <[n:=h]> (captures w); output_file := output_file w |} Hnd)
      as (w' & results' & -> & Hout & Hres & Hcap & Hother).
    { intros name Hname. apply Hfresh. rewrite fmap_cons. by right. }
    exists w', results'. split_and!; [done..| | |].
    + intros name r. rewrite Hres. split.
      * intros [?|(video & Hin & Hok)]; [by left|].
        right. exists video. split; [by right|done].
      * intros [?|(video & [[= -> ->]|Hin]%elem_of_cons & Hok)]; [by left| |].
        -- rewrite Hdet in Hok. done.
        -- right. by exists video.
    + intros name video [[= -> ->]|Hin]%elem_of_cons.
      * rewrite Hother by done. simpl. rewrite lookup_insert_eq. by rewrite Hdet.
      * by apply Hcap.
    + intros name Hname. rewrite ?fmap_cons in Hname.
      apply not_elem_of_cons in Hname as [Hne Hname]. simpl in Hne.
      rewrite Hother by done. simpl.
      by rewrite lookup_insert_ne.
Qed.

Lemma batch_loop_as_main_loop self listing results w :
  all_detections_return self listing →
  batch_loop self listing results w =
  main_loop self (get_video_files listing) results w.
Proof.
  unfold all_detections_return, get_video_files. intros Hall. revert results w.
  induction Hall as [|[n v] rest Hf Hrest IH]; intros results w; [done|].
  cbn [batch_loop]. destruct (supported n) eqn:Hn.
  - rewrite filter_cons_True by done. cbn [main_loop].
    destruct (Hf Hn) as [r Hr]. simpl in Hr.
    unfold mbind, prog_bind, try_except. rewrite run_detection_run, Hr.
    unfold mret, prog_ret. apply IH.
  - rewrite filter_cons_False by (simpl; by rewrite Hn). apply IH.
Qed.

Lemma NoDup_get_video_files (data_dir : list (string * Video)) :
  NoDup data_dir.*1 → NoDup (get_video_files data_dir).*1.
Proof.
  intros Hnd. unfold get_video_files.
  assert ((filter (λ f : string * Video, supported f.1 = true) data_dir).*1
            `sublist_of` data_dir.*1) as Hsub
    by apply fmap_sublist, sublist_filter.
  by eapply sublist_NoDup.
Qed.

Lemma elem_of_get_video_files (data_dir : list (string * Video)) name video :
  (name, video) ∈ get_video_files data_dir ↔
  (name, video) ∈ data_dir ∧ supported name = true.
Proof. unfold get_video_files. rewrite list_elem_of_filter. simpl. tauto. Qed.

(** X14: when detection returns on every supported file of a directory
    without duplicate names, [batch_detect_intros] returns a mapping with
    exactly one entry per supported file, holding that file's detection
    result; the same mapping is written to the output file, every supported
    file's capture ends released, and no other capture is touched. *)
Theorem batch_detect_intros_success self video_directory w :
  NoDup video_directory.*1 →
  all_detections_return self video_directory →
  ∃ w' results,
    batch_detect_intros self video_directory w = (w', Ok results) ∧
    output_file w' = Some results ∧
    (∀ name r, results !! name = Some r ↔
       ∃ video, (name, video) ∈ video_directory ∧ supported name = true ∧
                (detect_intro self video Unopened).2 = Ok r) ∧
    (∀ name video, (name, video) ∈ video_directory → supported name = true →
       captures w' !! name = Some Released) ∧
    (∀ name, supported name = false → captures w' !! name = captures w !! name).
Proof.
  intros Hnd Hall. unfold batch_detect_intros.
  destruct (main_loop_results self (get_video_files video_directory) ∅ w)
    as (w1 & results & Hloop & Hout & Hres & Hcap & Hother).
  { by apply NoDup_get_video_files. }
  { intros name _. apply lookup_empty. }
  rewrite <- batch_loop_as_main_loop in Hloop by done.
  exists {| captures := captures w1; output_file := Some results |}, results.
  split_and!.
  - unfold mbind, prog_bind. rewrite Hloop. done.
  - done.
  - intros name r. rewrite Hres, lookup_empty. split.
    + intros [?|(video & Hin%elem_of_get_video_files & Hok)]; [done|].
      exists video. tauto.
    + intros (video & Hin & Hsup & Hok). right. exists video.
      split; [by apply elem_of_get_video_files|done].
  - intros name video Hin Hsup. simpl.
    rewrite (Hcap name video) by by apply elem_of_get_video_files.
    unfold all_detections_return in Hall. rewrite Forall_forall in Hall.
    destruct (Hall _ Hin Hsup) as [r Hr]. simpl in Hr.
    destruct (detect_intro self video Unopened) as [h res] eqn:Hdet.
    simpl in Hr. subst res. by apply detect_intro_Ok in Hdet as [-> _].
  - intros name Hsup. simpl. apply Hother.
    intros ((n & v) & -> & Hin%elem_of_get_video_files)%list_elem_of_fmap.
    simpl in Hsup. destruct Hin as [_ Hin]. congruence.
Qed.

Lemma batch_detect_intros_success_witness :
  ∃ w' results,
    batch_detect_intros default_detector healthy_directory empty_world
      = (w', Ok results) ∧
    output_file w' = Some results ∧
    is_Some (results !! "b.mkv") ∧
    captures w' !! "notes.txt" = None.
Proof.
  destruct (batch_detect_intros_success default_detector healthy_directory empty_world)
    as (w' & results & Hrun & Hout & Hres & _ & Hother).
  - apply (bool_decide_unpack _). vm_compute. exact I.
  - unfold all_detections_return, healthy_directory.
    repeat (constructor;
              [intros Hs; first [ eexists; vm_compute; reflexivity
                                | vm_compute in Hs; discriminate ]|]).
    constructor.
  - exists w', results. split; [exact Hrun|]. split; [exact Hout|]. split.
    + eexists. apply Hres. exists (still_video 1).
      split; [|split; vm_compute; reflexivity].
      unfold healthy_directory. do 2 right. by left.
    + rewrite Hother by (vm_compute; reflexivity). reflexivity.
Defined.

(** X15: the loop of [main] in [run_detector.py] never lets a detection
    exception escape.  On a directory without duplicate names it writes
    nothing when no file is supported, and otherwise writes exactly one
    entry for each supported file whose detection returned. *)
Theorem main_records_successes detector data_dir w :
  NoDup data_dir.*1 →
  ∃ w', main detector data_dir w = (w', Ok ()) ∧
    match get_video_files data_dir with
    | [] => w' = w
    | _ :: _ =>
        ∃ results, output_file w' = Some results ∧
          ∀ name r, results !! name = Some r ↔
            ∃ video, (name, video) ∈ data_dir ∧ supported name = true ∧
                     (detect_intro detector video Unopened).2 = Ok r
    end.
Proof.
  intros Hnd. unfold main.
  destruct (get_video_files data_dir) as [|f files] eqn:Hfiles.
  { by exists w. }
  destruct (main_loop_results detector (f :: files) ∅ w)
    as (w1 & results & Hloop & Hout & Hres & _).
  { rewrite <- Hfiles. by apply NoDup_get_video_files. }
  { intros name _. apply lookup_empty. }
  exists {| captures := captures w1; output_file := Some results |}.
  split.
  - unfold mbind, prog_bind. rewrite Hloop. done.
  - exists results. split; [done|].
    intros name r. rewrite Hres, lookup_empty, <- Hfiles. split.
    + intros [?|(video & Hin%elem_of_get_video_files & Hok)]; [done|].
      exists video. tauto.
    + intros (video & Hin & Hsup & Hok). right. exists video.
      split; [by apply elem_of_get_video_files|done].
Qed.

Lemma main_records_successes_witness :
  ∃ w' results,
    main default_detector failing_directory empty_world = (w', Ok ()) ∧
    output_file w' = Some results ∧
    results !! "a.mp4" = None ∧ is_Some (results !! "b.mp4").
Proof.
  destruct (main_records_successes default_detector failing_directory empty_world)
    as (w' & Hrun & Hfiles).
  - apply (bool_decide_unpack _). vm_compute. exact I.
  - change (get_video_files failing_directory)
      with [("a.mp4", unreadable_video); ("b.mp4", still_video 4)] in Hfiles.
    destruct Hfiles as (results & Hout & Hres).
    exists w', results. split; [exact Hrun|]. split; [exact Hout|]. split.
    + destruct (results !! "a.mp4") as [r|] eqn:Ha; [|reflexivity].
      apply Hres in Ha as (video & Hin & _ & Hok). exfalso.
      unfold failing_directory in Hin.
      apply elem_of_cons in Hin as [[= ->]|Hin]; [vm_compute in Hok; discriminate|].
      apply elem_of_cons in Hin as [[=]|Hin].
      apply elem_of_cons in Hin as [[=]|Hin]. by apply elem_of_nil in Hin.
    + eexists. apply Hres. exists (still_video 4).
      split; [|split; vm_compute; reflexivity].
      unfold failing_directory. right. by left.
Defined.



(** * Evaluation against annotations *)

Lemma Qc_eq_Qeq (x y : Qc) : x = y ↔ (this x == this y)%Q.
Proof. split; [by intros -> | apply Qc_is_canon]. Qed.

Lemma Qc_div_bounds (i u : Qc) :
  (0 < u → 0 ≤ i → i ≤ u → 0 ≤ i / u ≤ 1)%Qc.
Proof.
  intros Hu Hi Hiu. pose proof (Qcinv_pos _ Hu) as Hinv. unfold Qcdiv. split.
  - rewrite <- (Qcmult_0_l (/ u)). apply Qcmult_le_compat_r; [done|].
    by apply Qclt_le_weak.
  - rewrite <- (Qcmult_inv_r u).
    + apply Qcmult_le_compat_r; [done | by apply Qclt_le_weak].
    + intros ->. by apply (irreflexivity Qclt 0%Qc).
Qed.

Lemma Qc_div_eq_1 (i u : Qc) : (0 < u)%Qc → (i / u)%Qc = 1%Qc ↔ i = u.
Proof.
  intros Hu.
  assert (u ≠ 0%Qc) as Hne.
  { intros ->. by apply (irreflexivity Qclt 0%Qc). }
  split.
  - intros H. rewrite <- (Qcmult_div_r i u Hne), H. ring.
  - intros ->. unfold Qcdiv. by apply Qcmult_inv_r.
Qed.

Lemma iou_intersection_bounds (gs ge ps pe : Qc) :
  (0 ≤ py_max 0 (py_min ge pe - py_max gs ps))%Qc ∧
  ((0 < py_max pe ge - py_min ps gs)%Qc →
   (py_max 0 (py_min ge pe - py_max gs ps) ≤ py_max pe ge - py_min ps gs)%Qc).
Proof.
  unfold py_max, py_min. repeat case_decide; split; intros; qc_lra.
Qed.

Lemma iou_intersection_full (gs ge ps pe : Qc) :
  (0 < py_max pe ge - py_min ps gs)%Qc →
  (py_max 0 (py_min ge pe - py_max gs ps))%Qc = (py_max pe ge - py_min ps gs)%Qc ↔
  gs = ps ∧ ge = pe.
Proof.
  unfold py_max, py_min. rewrite !Qc_eq_Qeq.
  repeat case_decide; intros; qc_to_q; split; intros; repeat split; lra.
Qed.


Lemma interval_iou_bounds (gs ge ps pe : Qc) :
  (0 ≤ interval_iou gs ge ps pe ≤ 1)%Qc.
Proof.
  unfold interval_iou.
  destruct (iou_intersection_bounds gs ge ps pe) as [Hlo Hhi].
  case_decide as Hu.
  - apply Qc_div_bounds; auto.
  - split; [done|]. apply Qclt_le_weak. reflexivity.
Qed.

Lemma interval_iou_eq_1 (gs ge ps pe : Qc) :
  interval_iou gs ge ps pe = 1%Qc ↔ gs = ps ∧ ge = pe ∧ (gs < ge)%Qc.
Proof.
  unfold interval_iou. case_decide as Hu.
  - rewrite Qc_div_eq_1 by done. rewrite iou_intersection_full by done.
    split.
    + intros [-> ->]. split_and!; [done..|].
      revert Hu. unfold py_max, py_min. repeat case_decide; intros; qc_lra.
    + tauto.
  - split.
    + intros H. apply Qc_eq_Qeq in H. discriminate.
    + intros (-> & -> & Hlt). exfalso. apply Hu.
      revert Hlt. unfold py_max, py_min. repeat case_decide; intros; qc_lra.
Qed.



Lemma py_sum_from (a : Qc) (xs : list Qc) : foldl Qcplus a xs = (a + Qc_sum xs)%Qc.
Proof.
  revert a. induction xs as [|x xs IH]; intros a; simpl.
  - by rewrite Qcplus_0_r.
  - rewrite IH. unfold Qc_sum. simpl. ring.
Qed.

Lemma py_sum_Qc_sum (xs : list Qc) : py_sum xs = Qc_sum xs.
Proof. unfold py_sum. rewrite py_sum_from. apply Qcplus_0_l. Qed.

Lemma Qc_sum_nonneg (xs : list Qc) :
  Forall (λ x, 0 ≤ x)%Qc xs → (0 ≤ Qc_sum xs)%Qc.
Proof.
  induction 1 as [|x xs Hx Hxs IH]; [done|].
  change (Qc_sum (x :: xs)) with (x + Qc_sum xs)%Qc. by apply Qcplus_nonneg_nonneg.
Qed.

Lemma Qc_sum_ones (xs : list Qc) :
  Forall (λ x, x = 1%Qc) xs → Qc_sum xs = Qc_of_Z (Z.of_nat (length xs)).
Proof.
  induction 1 as [|x xs Hx Hxs IH]; [by apply Qc_is_canon|].
  change (Qc_sum (x :: xs)) with (x + Qc_sum xs)%Qc.
  rewrite length_cons, Qc_of_nat_S, IH, Hx. done.
Qed.

Lemma evaluate_step_counted annotations s item :
  counted annotations item →
  ∃ iou, (0 ≤ iou ≤ 1)%Qc ∧
    evaluate_step annotations s item =
    {| tally_total := tally_total s + 1;
       tally_correct := if decide (Q2Qc (1 # 2) < iou)%Qc
                        then tally_correct s + 1 else tally_correct s;
       tally_iou_scores := tally_iou_scores s ++ [iou] |}.
Proof.
  destruct item as [name pred]. intros [[ann Hann] Hfound]. simpl in *.
  eexists. split; [|by rewrite Hann, Hfound].
  apply interval_iou_bounds.
Qed.

Lemma evaluate_step_skipped annotations s item :
  ¬ counted annotations item → evaluate_step annotations s item = s.
Proof.
  destruct item as [name pred]. unfold counted. simpl. intros Hskip.
  destruct (annotations !! name) as [ann|]; [|done].
  destruct (pred_found pred); [|done]. exfalso. apply Hskip. split; [by eexists|done].
Qed.

Lemma evaluate_tally annotations predictions s :
  let s' := foldl (evaluate_step annotations) s predictions in
  let n := Z.of_nat (length (filter (counted annotations) predictions)) in
  tally_total s' = tally_total s + n ∧
  tally_correct s ≤ tally_correct s' ≤ tally_correct s + n ∧
  length (tally_iou_scores s') = (length (tally_iou_scores s)
                                  + length (filter (counted annotations) predictions))%nat ∧
  (Forall (λ x, 0 ≤ x ≤ 1)%Qc (tally_iou_scores s) →
   Forall (λ x, 0 ≤ x ≤ 1)%Qc (tally_iou_scores s')).
Proof.
  revert s. induction predictions as [|item predictions IH]; intros s.
  - cbn. split_and!; [lia..|done].
  - cbn [foldl]. cbv zeta in IH |- *.
    destruct (decide (counted annotations item)) as [Hc|Hc].
    + rewrite filter_cons_True by done.
      destruct (evaluate_step_counted annotations s item Hc) as (iou & Hiou & ->).
      destruct (decide (Q2Qc (1 # 2) < iou)%Qc) as [Hhalf|Hhalf].
      all: match goal with
           | |- context [foldl _ ?s0 _] =>
               destruct (IH s0) as (Ht & Hcor & Hlen & Hall)
           end.
      all: cbn [tally_total tally_correct tally_iou_scores] in *.
      all: rewrite length_app in Hlen; cbn [length] in *.
      all: split_and!; [lia..|].
      all: intros Hs; apply Hall, Forall_app; split; [done|]; by constructor.
    + rewrite filter_cons_False by done. rewrite evaluate_step_skipped by done.
      apply IH.
Qed.

(** X18: the metrics of [evaluate_predictions] are well formed for every
    input: [total] counts the predictions that are found and annotated,
    [0 ≤ correct ≤ total], and accuracy and mean IoU lie between 0 and 1
    (both are 0 when nothing is counted: no division by zero). *)
Theorem evaluation_metrics_bounds (annotations : gmap string Annotation)
    (predictions : list (string * DetectionResult)) :
  let m := evaluate_predictions annotations predictions in
  metrics_total m = Z.of_nat (length (filter (counted annotations) predictions)) ∧
  0 ≤ metrics_correct m ≤ metrics_total m ∧
  (0 ≤ accuracy m ≤ 1)%Qc ∧
  (0 ≤ mean_iou m ≤ 1)%Qc ∧
  (metrics_total m = 0 → accuracy m = 0%Qc ∧ mean_iou m = 0%Qc).
Proof.
  intros m. subst m. unfold evaluate_predictions.
  destruct (evaluate_tally annotations predictions
              {| tally_total := 0; tally_correct := 0; tally_iou_scores := [] |})
    as (Ht & Hcor & Hlen & Hall).
  cbv zeta in *. cbn [tally_total tally_correct tally_iou_scores length] in *.
  specialize (Hall (Forall_nil_2 _)).
  set (s := foldl _ _ _) in *. unfold metrics_of. cbn. split_and!.
  - lia.
  - lia.
  - lia.
  - case_decide; [|done]. apply Qc_div_bounds.
    + rewrite <- Z2Qc_inj_0. by apply (proj1 (Z2Qc_inj_lt _ _)).
    + rewrite <- Z2Qc_inj_0. apply (proj1 (Z2Qc_inj_le _ _)). lia.
    + apply (proj1 (Z2Qc_inj_le _ _)). lia.
  - case_decide; [|done]. apply Qc_div_bounds.
    + rewrite <- Z2Qc_inj_0. by apply (proj1 (Z2Qc_inj_lt _ _)).
    + rewrite <- Z2Qc_inj_0. apply (proj1 (Z2Qc_inj_le _ _)). lia.
    + apply (proj1 (Z2Qc_inj_le _ _)). lia.
  - destruct (tally_iou_scores s) as [|x xs] eqn:Hscores; [done|].
    rewrite py_sum_Qc_sum. apply Qc_div_bounds.
    + apply Qc_of_nat_pos. simpl. lia.
    + apply Qc_sum_nonneg. eapply Forall_impl; [exact Hall|]. by intros y [? _].
    + rewrite <- (Qcmult_1_r (Qc_of_Z _)). apply Qc_sum_le.
      eapply Forall_impl; [exact Hall|]. by intros y [_ ?].
  - destruct (tally_iou_scores s) as [|x xs] eqn:Hscores; [done|].
    rewrite py_sum_Qc_sum. apply Qc_div_bounds.
    + apply Qc_of_nat_pos. simpl. lia.
    + apply Qc_sum_nonneg. eapply Forall_impl; [exact Hall|]. by intros y [? _].
    + rewrite <- (Qcmult_1_r (Qc_of_Z _)). apply Qc_sum_le.
      eapply Forall_impl; [exact Hall|]. by intros y [_ ?].
  - intros Hzero. rewrite decide_False by lia.
    destruct (tally_iou_scores s) as [|x xs]; [done|]. simpl in Hlen. lia.
Qed.

Lemma evaluation_metrics_bounds_witness :
  let m := evaluate_predictions sample_annotations
             [("c.mp4", Found (Qc_of_Z 1) (Qc_of_Z 3) (Qc_of_Z 2) 1%Qc)] in
  accuracy m = 0%Qc ∧ mean_iou m = 0%Qc.
Proof.
  apply (evaluation_metrics_bounds sample_annotations
           [("c.mp4", Found (Qc_of_Z 1) (Qc_of_Z 3) (Qc_of_Z 2) 1%Qc)]).
  vm_compute. reflexivity.
Defined.

Lemma foldl_evaluate_filter annotations predictions s :
  foldl (evaluate_step annotations) s predictions
  = foldl (evaluate_step annotations) s (filter (counted annotations) predictions).
Proof.
  revert s. induction predictions as [|item predictions IH]; intros s; [done|].
  destruct (decide (counted annotations item)) as [Hc|Hc].
  - rewrite filter_cons_True by done. cbn [foldl]. apply IH.
  - rewrite filter_cons_False by done. cbn [foldl].
    rewrite evaluate_step_skipped by done. apply IH.
Qed.

(** X19: predictions for files without an annotation, and predictions
    without an intro, do not enter the metrics: [evaluate_predictions]
    returns what it returns on the remaining predictions alone. *)
Theorem evaluation_ignores_uncounted (annotations : gmap string Annotation)
    (predictions : list (string * DetectionResult)) :
  evaluate_predictions annotations predictions
  = evaluate_predictions annotations (filter (counted annotations) predictions).
Proof. unfold evaluate_predictions. by rewrite foldl_evaluate_filter. Qed.

Lemma evaluate_exact annotations predictions s :
  (∀ name pred ann, (name, pred) ∈ predictions →
     annotations !! name = Some ann → pred_found pred = true →
     annotated_start ann = Some (pred_start_time pred) ∧
     annotated_end ann = Some (pred_end_time pred) ∧
     (pred_start_time pred < pred_end_time pred)%Qc) →
  tally_correct s = tally_total s →
  Forall (λ x, x = 1%Qc) (tally_iou_scores s) →
  let s' := foldl (evaluate_step annotations) s predictions in
  tally_correct s' = tally_total s' ∧ Forall (λ x, x = 1%Qc) (tally_iou_scores s').
Proof.
  revert s. induction predictions as [|[name pred] predictions IH]; intros s Hex Hs Hall.
  - done.
  - cbn [foldl]. cbv zeta in IH |- *. apply IH.
    + intros n p a Hin. apply Hex. by right.
    + simpl. destruct (annotations !! name) as [ann|] eqn:Hann; [|done].
      destruct (pred_found pred) eqn:Hfound; [|done].
      destruct (Hex name pred ann) as (Hstart & Hend & Hlt); [by left|done..|].
      rewrite Hstart, Hend. cbn [default tally_correct tally_total].
      rewrite (proj2 (interval_iou_eq_1 _ _ _ _)) by done.
      rewrite decide_True; [lia|]. done.
    + simpl. destruct (annotations !! name) as [ann|] eqn:Hann; [|done].
      destruct (pred_found pred) eqn:Hfound; [|done].
      destruct (Hex name pred ann) as (Hstart & Hend & Hlt); [by left|done..|].
      rewrite Hstart, Hend. cbn [default tally_iou_scores].
      apply Forall_app. split; [done|]. constructor; [|done].
      by apply interval_iou_eq_1.
Qed.

(** X20: when every counted prediction is exactly the annotated interval of
    its file, and that interval has positive length, then every counted
    prediction is correct, and, if at least one prediction is counted,
    accuracy and mean IoU are both 1. *)
Theorem exact_predictions_score_one (annotations : gmap string Annotation)
    (predictions : list (string * DetectionResult)) :
  (∀ name pred ann, (name, pred) ∈ predictions →
     annotations !! name = Some ann → pred_found pred = true →
     annotated_start ann = Some (pred_start_time pred) ∧
     annotated_end ann = Some (pred_end_time pred) ∧
     (pred_start_time pred < pred_end_time pred)%Qc) →
  let m := evaluate_predictions annotations predictions in
  metrics_correct m = metrics_total m ∧
  (Exists (counted annotations) predictions →
   accuracy m = 1%Qc ∧ mean_iou m = 1%Qc).
Proof.
  intros Hex m. subst m. unfold evaluate_predictions.
  set (s0 := {| tally_total := 0; tally_correct := 0; tally_iou_scores := [] |}).
  destruct (evaluate_exact annotations predictions s0 Hex) as [Hcor Hones];
    [done|by constructor|].
  destruct (evaluate_tally annotations predictions s0) as (Ht & _ & Hlen & _).
  cbv zeta in *. cbn [tally_total tally_correct tally_iou_scores length s0] in *.
  set (s := foldl _ _ _) in *. unfold metrics_of. cbn. split; [done|].
  intros Hsome.
  assert (0 < length (filter (counted annotations) predictions))%nat as Hpos.
  { apply Exists_exists in Hsome as (item & Hin & Hc).
    assert (item ∈ filter (counted annotations) predictions) as Hin'
      by by apply list_elem_of_filter.
    destruct (filter _ _); [by apply elem_of_nil in Hin'|simpl; lia]. }
  split.
  - rewrite decide_True by lia. rewrite Hcor. apply Qc_div_eq_1; [|done].
    rewrite Ht. apply Qc_of_nat_pos. done.
  - destruct (tally_iou_scores s) as [|x xs] eqn:Hscores; [simpl in Hlen; lia|].
    rewrite py_sum_Qc_sum. apply Qc_div_eq_1.
    + apply Qc_of_nat_pos. simpl. lia.
    + by apply Qc_sum_ones.
Qed.

Lemma exact_predictions_score_one_witness :
  let m := evaluate_predictions sample_annotations sample_predictions in
  metrics_correct m = metrics_total m ∧ accuracy m = 1%Qc ∧ mean_iou m = 1%Qc.
Proof.
  destruct (exact_predictions_score_one sample_annotations sample_predictions)
    as [Hcor Hone].
  - intros name pred ann Hin Hann Hfound.
    unfold sample_predictions in Hin.
    repeat (apply elem_of_cons in Hin as [[= -> ->]|Hin]);
      [| | |by apply elem_of_nil in Hin].
    + vm_compute in Hann. injection Hann as <-. split_and!; [reflexivity..|].
      vm_compute. reflexivity.
    + discriminate Hfound.
    + vm_compute in Hann. discriminate Hann.
  - split; [exact Hcor|]. apply Hone. apply Exists_cons_hd.
    split; [eexists; vm_compute; reflexivity|reflexivity].
Defined.

Lemma py_int_Qc_of_Z (n : Z) : py_int (Qc_of_Z n) = n.
Proof.
  unfold py_int, Qc_of_Z. cbn. apply Z.quot_1_r.
Qed.

Lemma py_slice_partition {A} (l : list A) (k : Z) :
  py_slice_to l k ++ py_slice_from l k = l.
Proof. apply take_drop. Qed.

(** X21: [get_train_test_split] cuts the list of video files in two without
    losing, repeating or reordering a file, for every [test_size] (also
    outside [0, 1]); with [test_size = 0] the test part is empty and with
    [test_size = 1] the training part is empty. *)
Theorem train_test_split_partition (data_dir : list (string * Video)) (test_size : Qc) :
  let '(train, test) := get_train_test_split data_dir test_size in
  train ++ test = get_video_files data_dir ∧
  (test_size = 0%Qc → train = get_video_files data_dir ∧ test = []) ∧
  (test_size = 1%Qc → train = [] ∧ test = get_video_files data_dir).
Proof.
  unfold get_train_test_split. cbv zeta.
  split; [apply py_slice_partition|]. split; intros ->.
  - replace (1 - 0)%Qc with 1%Qc by ring. rewrite Qcmult_1_r.
    rewrite py_int_Qc_of_Z. unfold py_slice_to, py_slice_from, py_slice_bound.
    rewrite decide_False by lia. rewrite Z.min_id, Nat2Z.id.
    by rewrite take_ge, drop_ge by lia.
  - replace (1 - 1)%Qc with 0%Qc by ring. rewrite Qcmult_0_r.
    change (py_int 0%Qc) with 0. unfold py_slice_to, py_slice_from, py_slice_bound.
    rewrite decide_False by lia. rewrite Z.min_l by lia. done.
Qed.

Lemma train_test_split_partition_witness :
  (get_train_test_split healthy_directory 1%Qc).1 = [] ∧
  (get_train_test_split healthy_directory 1%Qc).2 = get_video_files healthy_directory.
Proof.
  pose proof (train_test_split_partition healthy_directory 1%Qc) as H.
  destruct (get_train_test_split healthy_directory 1%Qc) as [train test].
  apply H. reflexivity.
Defined.
